(** * Gauss-Seidel power flow (pypower/gausspf.py)

    A shallow embedding of [gausspf] and the properties of its sweep,
    its mismatch checks and its iteration control.

    The NumPy scalar arithmetic the solver calls (complex128 and float64
    operations, [abs], [linalg.norm]) is an interface, [Numeric]: the
    solver is written once over it, and the statements that do not depend
    on arithmetic laws hold for every implementation of it, IEEE binary64
    included.  Two implementations are given: exact complex numbers over
    the reals, and pairs of binary64 floats, on which the model runs. *)

From Stdlib Require Import ZArith List Reals Lra Floats.
From Equations Require Import Equations.
From Equations.Prop Require Import Logic.
From stdpp Require Import base option list sorting gmap.

Set Default Proof Using "Type".

(* ===================================================================== *)
(** ** The arithmetic the solver is written over *)
(* ===================================================================== *)

(** NumPy scalars: [Re] is float64, [Cx] is complex128. *)
Class Numeric : Type := {
  Re : Type;
  Cx : Type;
  cadd : Cx -> Cx -> Cx;            (* a + b *)
  csub : Cx -> Cx -> Cx;            (* a - b *)
  cmul : Cx -> Cx -> Cx;            (* a * b *)
  cdiv : Cx -> Cx -> Cx;            (* a / b *)
  conj : Cx -> Cx;                  (* conj(a) *)
  real : Cx -> Re;                  (* a.real *)
  imag : Cx -> Re;                  (* a.imag *)
  of_real : Re -> Cx;               (* promotion of a float to complex *)
  c0 : Cx;                          (* 0, the start of a matrix-vector sum *)
  cj : Cx;                          (* 1j *)
  cabs : Cx -> Re;                  (* abs(a) *)
  norm_inf : list Re -> option Re;  (* linalg.norm(F, Inf); None when it raises *)
  rltb : Re -> Re -> bool           (* a < b *)
}.

Section Solver.
Context `{N : Numeric}.

(** Progress output written to [sys.stdout], one constructor per write. *)
Inductive out_event : Type :=
  | OutBanner                          (* '(Gauss-Seidel)\n' *)
  | OutHeader                          (* '\n it    max P & Q mismatch (p.u.)' *)
  | OutRule                            (* '\n----  ---------------------------' *)
  | OutIter (i : Z) (normF : Re)       (* '\n%3d        %10.3e' % (i, normF) *)
  | OutConvergedBang                   (* '\nConverged!\n' *)
  | OutConverged (i : Z)               (* '\nGauss-Seidel power flow converged in %d iterations.\n' *)
  | OutNotConverged (i : Z).           (* 'Gauss-Seidel power did not converge in %d iterations.' *)

(** The entries of the options vector [ppopt] that [gausspf] reads. *)
Record ppopt_t : Type := mk_ppopt {
  PF_TOL : Re;
  PF_MAX_IT_GS : Z;
  VERBOSE : Z
}.

(** What a call leaves behind: the returned triple [(V, converged, i)],
    the contents of the caller's [Sbus] array (mutated in place), the last
    value of the local [normF], and what was written to stdout.
    [converged] is the Python integer 0 or 1, read as a boolean. *)
Record outcome : Type := mk_outcome {
  out_V : list Cx;
  out_converged : bool;
  out_i : Z;
  out_Sbus : list Cx;
  out_normF : Re;
  out_written : list out_event
}.

(** [Ybus] is a SciPy sparse matrix.  It is given by its rows, a row
    having one entry per column: [Some y] where the matrix stores [y] (a
    stored entry may be a zero), [None] where it stores nothing. *)
Implicit Types (V Sbus mis : list Cx) (Ybus : list (list (option Cx))).
Implicit Types (Vm F : list Re) (pv pq ref : list nat) (k : nat).

(** *** Array operations (None stands for a raised IndexError / ValueError) *)

(** [row * V] for one row of the matrix and a vector: the products of the
    stored entries with the entries of [V] in their columns, added in the
    order of the columns to a sum that starts at 0; columns where nothing
    is stored are skipped.  The row must have as many columns as [V] has
    entries. *)
Definition dot (row : list (option Cx)) V : option Cx :=
  if decide (length row = length V)
  then Some (foldl (λ acc p, match p.1 with
                             | Some y => cadd acc (cmul y p.2)
                             | None => acc
                             end) c0 (zip row V))
  else None.

(** [Ybus * V], [Ybus] given by its rows. *)
Definition matvec Ybus V : option (list Cx) :=
  mapM (λ row, dot row V) Ybus.

(** An elementwise operation of NumPy on two vectors: lengths that differ
    are accepted when one of them is 1, and the one entry is then used
    against every entry of the other vector. *)
Definition broadcast {A B C} (f : A -> B -> C) (a : list A) (b : list B) :
    option (list C) :=
  if decide (length a = length b) then Some (zip_with f a b)
  else match a, b with
       | [x], _ => Some (f x <$> b)
       | _, [y] => Some ((λ x, f x y) <$> a)
       | _, _ => None
       end.

(** [a[idx]] for an index array [idx]. *)
Definition take_idx {A} (a : list A) (idx : list nat) : option (list A) :=
  mapM (λ k, a !! k) idx.

(** [a[idx] = vals], entry by entry in the order of [idx]. *)
Definition assign {A} (a : list A) (idx : list nat) (vals : list A) : list A :=
  foldl (λ a p, <[p.1 := p.2]> a) a (zip idx vals).

(** [mis = V * conj(Ybus * V) - Sbus] (lines 68 and 107): the product and
    the difference are elementwise operations of NumPy. *)
Definition mismatch Ybus Sbus V : option (list Cx) :=
  YV ← matvec Ybus V;
  p ← broadcast cmul V (conj <$> YV);
  broadcast csub p Sbus.

(** [F = r_[mis[pvpq].real, mis[pq].imag]] with [pvpq = r_[pv, pq]]
    (lines 65, 69-70): the vector checked before the first sweep. *)
Definition F_initial mis pv pq : option (list Re) :=
  let pvpq := pv ++ pq in
  a ← take_idx mis pvpq;
  b ← take_idx mis pq;
  Some ((real <$> a) ++ (imag <$> b)).

(** [F = r_[mis[pv].real, mis[pq].real, mis[pq].imag]] (lines 108-110). *)
Definition F_loop mis pv pq : option (list Re) :=
  a ← take_idx mis pv;
  b ← take_idx mis pq;
  c ← take_idx mis pq;
  Some ((real <$> a) ++ (real <$> b) ++ (imag <$> c)).

(** *** The per-bus update (lines 93-94 and 101-102) *)

(** [tmp = (conj(Sbus[k] / V[k]) - Ybus[k, :] * V) / Ybus[k, k]]; reading
    an entry that the matrix does not store gives 0. *)
Definition gs_correction Ybus Sbus V k : option Cx :=
  sk ← Sbus !! k;
  vk ← V !! k;
  row ← Ybus !! k;
  yv ← dot row V;
  e ← row !! k;
  Some (cdiv (csub (conj (cdiv sk vk)) yv) (default c0 e)).

(** [V[k] = V[k] + asscalar(tmp)] *)
Definition update_bus Ybus Sbus V k : option (list Cx) :=
  tmp ← gs_correction Ybus Sbus V k;
  vk ← V !! k;
  Some (<[k := cadd vk tmp]> V).

(** [for k in pq[range(npq)]: ...] (lines 92-94): the buses of [pq] in
    the order of the array, each update written into [V] before the next
    bus is visited. *)
Fixpoint pq_update Ybus Sbus pq V : option (list Cx) :=
  match pq with
  | [] => Some V
  | k :: ks => V' ← update_bus Ybus Sbus V k; pq_update Ybus Sbus ks V'
  end.

(** The reactive injection of lines 99-100:
    [tmp = (V[k] * conj(Ybus[k,:] * V)).imag] and
    [Sbus[k] = Sbus[k].real + 1j * asscalar(tmp)]. *)
Definition pv_injection Ybus Sbus V k : option Cx :=
  vk ← V !! k;
  row ← Ybus !! k;
  yv ← dot row V;
  let tmp := imag (cmul vk (conj yv)) in
  sk ← Sbus !! k;
  Some (cadd (of_real (real sk)) (cmul cj (of_real tmp))).

(** One pass of the body of the PV loop (lines 99-102) on [(V, Sbus)]. *)
Definition pv_bus Ybus k (st : list Cx * list Cx) : option (list Cx * list Cx) :=
  let '(V, Sbus) := st in
  s ← pv_injection Ybus Sbus V k;
  let Sbus' := <[k := s]> Sbus in
  V' ← update_bus Ybus Sbus' V k;
  Some (V', Sbus').

(** [for k in pv[range(npv)]: ...] (lines 98-102). *)
Fixpoint pv_loop Ybus pv (st : list Cx * list Cx) : option (list Cx * list Cx) :=
  match pv with
  | [] => Some st
  | k :: ks => st' ← pv_bus Ybus k st; pv_loop Ybus ks st'
  end.

(** [V[pv] = Vm[pv] * V[pv] / abs(V[pv])] (line 104): the right-hand side
    is computed from the vector as the loop left it, then assigned. *)
Definition renormalize Vm pv V : option (list Cx) :=
  m ← take_idx Vm pv;
  v ← take_idx V pv;
  Some (assign V pv
          (zip_with (λ mk vk, cdiv (cmul (of_real mk) vk) (of_real (cabs vk))) m v)).

(** Lines 97-104: the PV part of a sweep, skipped when [npv] is 0. *)
Definition pv_update Ybus Vm pv (st : list Cx * list Cx) : option (list Cx * list Cx) :=
  if decide (length pv = 0) then Some st
  else
    st' ← pv_loop Ybus pv st;
    V' ← renormalize Vm pv st'.1;
    Some (V', st'.2).

(** Lines 90-104: one sweep over the PQ buses, then the PV buses. *)
Definition gs_sweep Ybus Vm pv pq (st : list Cx * list Cx) : option (list Cx * list Cx) :=
  V' ← pq_update Ybus st.2 pq st.1;
  pv_update Ybus Vm pv (V', st.2).

(** [n] sweeps in a row. *)
Fixpoint sweeps Ybus Vm pv pq (n : nat) (st : list Cx * list Cx) :
    option (list Cx * list Cx) :=
  match n with
  | O => Some st
  | S n' => st' ← gs_sweep Ybus Vm pv pq st; sweeps Ybus Vm pv pq n' st'
  end.

(** *** The iteration (lines 86-120) *)

(** The variables the while loop carries besides the counter [i]. *)
Record gs_state : Type := mk_state {
  st_V : list Cx;
  st_Sbus : list Cx;
  st_converged : bool;
  st_normF : Re;
  st_written : list out_event
}.

(** The body of the while loop after [i = i + 1] (lines 90-120), [i]
    being the counter already incremented. *)
Definition gs_iteration Ybus Vm pv pq (tol : Re) (verbose : Z) (i : Z)
    (s : gs_state) : option gs_state :=
  st ← gs_sweep Ybus Vm pv pq (st_V s, st_Sbus s);
  mis ← mismatch Ybus st.2 st.1;
  F ← F_loop mis pv pq;
  normF ← norm_inf F;
  let w1 := if (1 <? verbose)%Z then st_written s ++ [OutIter i normF]
            else st_written s in
  if rltb normF tol
  then Some (mk_state st.1 st.2 true normF
               (if (verbose =? 0)%Z then w1 else w1 ++ [OutConverged i]))
  else Some (mk_state st.1 st.2 (st_converged s) normF w1).

(** [while (not converged and i < max_it): i = i + 1; ...] (line 86).
    It returns the counter and the variables when the loop is left. *)
Equations? gs_while Ybus Vm pv pq (tol : Re) (max_it verbose : Z) (i : Z)
    (s : gs_state) : option (Z * gs_state)
    by wf (Z.to_nat (max_it - i)) lt :=
  gs_while Ybus Vm pv pq tol max_it verbose i s
    with inspect (negb (st_converged s) && (i <? max_it)%Z) := {
    | exist _ true Hcond
        with gs_iteration Ybus Vm pv pq tol verbose (i + 1) s := {
        | Some s' := gs_while Ybus Vm pv pq tol max_it verbose (i + 1) s'
        | None := None };
    | exist _ false Hcond := Some (i, s) }.
Proof.
  apply andb_prop in Hcond as [_ Hlt]. apply Z.ltb_lt in Hlt. lia.
Qed.

(** *** The solver (lines 27-127)

    [ppopt = None] is the call without options: the defaults come from
    [ppoption()], which is a parameter here.  The argument [ref] is never
    read by the function. *)
Definition gausspf (ppoption : ppopt_t) Ybus Sbus (V0 : list Cx) ref pv pq
    (ppopt : option ppopt_t) : option outcome :=
  let ppopt := default ppoption ppopt in
  let tol := PF_TOL ppopt in
  let max_it := PF_MAX_IT_GS ppopt in
  let verbose := VERBOSE ppopt in
  let V := V0 in                       (* V = V0.copy() *)
  let Vm := cabs <$> V in              (* Vm = abs(V) *)
  mis ← mismatch Ybus Sbus V;
  F ← F_initial mis pv pq;
  normF ← norm_inf F;
  let w1 := if (0 <? verbose)%Z then [OutBanner] else [] in
  let w2 := if (1 <? verbose)%Z then w1 ++ [OutHeader; OutRule; OutIter 0 normF]
            else w1 in
  let converged := rltb normF tol in
  let w3 := if converged && (1 <? verbose)%Z then w2 ++ [OutConvergedBang] else w2 in
  r ← gs_while Ybus Vm pv pq tol max_it verbose 0
        (mk_state V Sbus converged normF w3);
  let '(i, s) := r in
  let w4 := if negb (verbose =? 0)%Z && negb (st_converged s)
            then st_written s ++ [OutNotConverged i] else st_written s in
  Some (mk_outcome (st_V s) (st_converged s) i (st_Sbus s) (st_normF s) w4).

(** *** The call as the caller sees it

    NumPy arrays are objects: the caller's [Sbus] and [V0] are named by
    locations of a store.  [V0.copy()] (line 58) allocates a new array for
    [V], so inside the function [V] and [Sbus] are distinct objects and
    [V0] is only read, before the first write; that is what lets [gausspf]
    above pass [V] and [Sbus] as two values.  The call leaves the new
    contents of [Sbus] at its location and returns the location of [V]. *)
Definition loc : Type := nat.

Record call_result : Type := mk_call {
  call_store : gmap loc (list Cx);
  call_V : loc;
  call_converged : bool;
  call_i : Z
}.

Definition gausspf_call (ppoption : ppopt_t) Ybus (σ : gmap loc (list Cx))
    (lSbus lV0 : loc) ref pv pq (ppopt : option ppopt_t) : option call_result :=
  Sbus ← σ !! lSbus;
  V0 ← σ !! lV0;
  o ← gausspf ppoption Ybus Sbus V0 ref pv pq ppopt;
  let lV := fresh (dom σ) in
  Some (mk_call (<[lV := out_V o]> (<[lSbus := out_Sbus o]> σ))
          lV (out_converged o) (out_i o)).

(** *** Definitions that follow the specification's words, for comparison *)

(** The specification's vector for the check before the first sweep: the
    real part at the swing bus and the PQ buses, then the imaginary part
    at the PQ buses. *)
Definition F_initial_spec mis ref pq : option (list Re) :=
  a ← take_idx mis (ref ++ pq);
  b ← take_idx mis pq;
  Some ((real <$> a) ++ (imag <$> b)).

(** A Jacobi pass over the PQ buses: every correction is computed from
    the vector as it was before the pass. *)
Definition jacobi_update Ybus Sbus pq V : option (list Cx) :=
  tmps ← mapM (gs_correction Ybus Sbus V) pq;
  vks ← take_idx V pq;
  Some (assign V pq (zip_with cadd vks tmps)).

(** *** What a call computes, apart from what it prints *)

(** The loop variables without the output written so far. *)
Definition erase (s : gs_state) : gs_state :=
  mk_state (st_V s) (st_Sbus s) (st_converged s) (st_normF s) [].

(** The returned triple, with the final contents of [Sbus] and the last
    norm. *)
Definition numbers (o : outcome) : list Cx * bool * Z * list Cx * Re :=
  (out_V o, out_converged o, out_i o, out_Sbus o, out_normF o).

(** *** Reading the output *)

(** The iteration numbers of the trace lines ('%3d  %10.3e') written. *)
Definition iter_lines (w : list out_event) : list Z :=
  omap (λ e, match e with OutIter i _ => Some i | _ => None end) w.

(** The summary a call writes when its verbosity is not 0: the line of
    line 119 when convergence came after a sweep, the line of line 124
    when it did not come, and nothing when the initial check passed. *)
Definition summary (converged : bool) (i : Z) : list out_event :=
  if converged then (if (i =? 0)%Z then [] else [OutConverged i])
  else [OutNotConverged i].

End Solver.

(* ===================================================================== *)
(** ** Two implementations of the arithmetic *)
(* ===================================================================== *)

(** *** Exact complex numbers over the reals

    The reals have no infinity and no NaN: a quotient by zero, which
    NumPy computes as one of these, has no counterpart here ([/] of the
    reals is total and gives a number).  Every statement made over this
    arithmetic therefore assumes that the divisors it meets are not
    zero. *)
Module RC.

Definition cx : Type := R * R.

Definition add (a b : cx) : cx := (a.1 + b.1, a.2 + b.2)%R.
Definition sub (a b : cx) : cx := (a.1 - b.1, a.2 - b.2)%R.
Definition mul (a b : cx) : cx :=
  (a.1 * b.1 - a.2 * b.2, a.1 * b.2 + a.2 * b.1)%R.
Definition div (a b : cx) : cx :=
  let d := (b.1 * b.1 + b.2 * b.2)%R in
  ((a.1 * b.1 + a.2 * b.2) / d, (a.2 * b.1 - a.1 * b.2) / d)%R.
Definition cconj (a : cx) : cx := (a.1, - a.2)%R.
Definition abs (a : cx) : R := R_sqrt.sqrt (a.1 * a.1 + a.2 * a.2)%R.

(** The largest absolute value; NumPy raises on an empty vector. *)
Definition norm (F : list R) : option R :=
  match F with
  | [] => None
  | x :: xs => Some (foldl (λ m y, Rmax m (Rabs y)) (Rabs x) xs)
  end.

Definition ltb (a b : R) : bool := if Rlt_dec a b then true else false.

Definition numeric : Numeric := {|
  Re := R; Cx := cx;
  cadd := add; csub := sub; cmul := mul; cdiv := div; conj := cconj;
  real := fst; imag := snd;
  of_real := λ x, (x, 0%R);
  c0 := (0%R, 0%R); cj := (0%R, 1%R);
  cabs := abs; norm_inf := norm; rltb := ltb
|}.

End RC.

(** *** IEEE binary64 pairs, with the algorithms of NumPy's complex loops *)
Module F64.

Definition cx : Type := float * float.

Definition add (a b : cx) : cx := (a.1 + b.1, a.2 + b.2)%float.
Definition sub (a b : cx) : cx := (a.1 - b.1, a.2 - b.2)%float.
Definition mul (a b : cx) : cx :=
  (a.1 * b.1 - a.2 * b.2, a.1 * b.2 + a.2 * b.1)%float.

(** Division scales by the larger part of the divisor (Smith's method). *)
Definition div (a b : cx) : cx :=
  let br := PrimFloat.abs b.1 in
  let bi := PrimFloat.abs b.2 in
  if (bi <=? br)%float then
    if (br =? 0)%float && (bi =? 0)%float then (a.1 / br, a.2 / br)%float
    else
      let rat := (b.2 / b.1)%float in
      let scl := (1 / (b.1 + b.2 * rat))%float in
      ((a.1 + a.2 * rat) * scl, (a.2 - a.1 * rat) * scl)%float
  else
    let rat := (b.1 / b.2)%float in
    let scl := (1 / (b.2 + b.1 * rat))%float in
    ((a.1 * rat + a.2) * scl, (a.2 * rat - a.1) * scl)%float.

Definition cconj (a : cx) : cx := (a.1, - a.2)%float.

(** NumPy takes [abs] of a complex number from the [hypot] of the C
    library, whose rounding IEEE 754 does not fix: the arithmetic takes
    it as a parameter.  [hypot_sqrt] is the textbook formula, used to run
    examples; it may differ from a library's [hypot] in the last bit, and
    it overflows in the squares where a library's does not. *)
Definition hypot_sqrt (re im : float) : float :=
  PrimFloat.sqrt (re * re + im * im).
Definition abs (a : cx) : float := hypot_sqrt a.1 a.2.

(** [max] as NumPy reduces it: a NaN wins. *)
Definition fmax (a b : float) : float :=
  if PrimFloat.is_nan a then a
  else if PrimFloat.is_nan b then b
  else if (a <? b)%float then b else a.

Definition norm (F : list float) : option float :=
  match F with
  | [] => None
  | x :: xs => Some (foldl (λ m y, fmax m (PrimFloat.abs y)) (PrimFloat.abs x) xs)
  end.

Definition numeric_with (hypot : float -> float -> float) : Numeric := {|
  Re := float; Cx := cx;
  cadd := add; csub := sub; cmul := mul; cdiv := div; conj := cconj;
  real := fst; imag := snd;
  of_real := λ x, (x, 0%float);
  c0 := (0%float, 0%float); cj := (0%float, 1%float);
  cabs := λ a, hypot a.1 a.2; norm_inf := norm; rltb := PrimFloat.ltb
|}.

Definition numeric : Numeric := numeric_with hypot_sqrt.

(** [r'] is the number [r], or a NaN. *)
Definition kept_or_nan (r r' : float) : bool :=
  (r' =? r)%float || PrimFloat.is_nan r'.

(** [a] and [b] are the same number, or both are NaN. *)
Definition same (a b : float) : bool :=
  (a =? b)%float || (PrimFloat.is_nan a && PrimFloat.is_nan b).

End F64.

(* ===================================================================== *)
(** ** Small networks *)
(* ===================================================================== *)

(** Three buses joined pairwise by lines of admittance [1 - 2j], in
    binary64: bus 0 is the reference, bus 1 a generator, bus 2 a load. *)
Module Net3.

Definition c (re im : float) : @Cx F64.numeric := (re, im).

Definition Ybus : list (list (option (@Cx F64.numeric))) :=
  [[Some (c 2 (-4)); Some (c (-1) 2); Some (c (-1) 2)];
   [Some (c (-1) 2); Some (c 2 (-4)); Some (c (-1) 2)];
   [Some (c (-1) 2); Some (c (-1) 2); Some (c 2 (-4))]].
Definition Sbus : list (@Cx F64.numeric) := [c 0 0; c 0.5 0; c (-0.5) (-0.25)].
Definition V0 : list (@Cx F64.numeric) := [c 1 0; c 1 0; c 1 0].

(** A first guess with no voltage at the load. *)
Definition V0dead : list (@Cx F64.numeric) := [c 1 0; c 1 0; c 0 0].

(** Injection at the generator only. *)
Definition Sgen : list (@Cx F64.numeric) := [c 0 0; c 0.5 0; c 0 0].

Definition ppopt (tol : float) (max_it verbose : Z) : @ppopt_t F64.numeric :=
  @mk_ppopt F64.numeric tol max_it verbose.

(** The caller's arrays: [Sbus] at location 0, [V0] at location 1. *)
Definition store : gmap loc (list (@Cx F64.numeric)) :=
  <[1 := V0]> (<[0 := Sbus]> ∅).

End Net3.

(** Two buses joined by a line of admittance 1, over the reals: bus 0 is
    the reference, bus 1 a generator whose reactive injection is given as
    1/2. *)
Module Net2.

Definition c (re : R) : @Cx RC.numeric := (re, 0%R).

Definition Ybus : list (list (option (@Cx RC.numeric))) :=
  [[Some (c 1); Some (c (-1))]; [Some (c (-1)); Some (c 1)]].
Definition Sbus : list (@Cx RC.numeric) := [c 0; (1, 1 / 2)%R].
Definition V0 : list (@Cx RC.numeric) := [c 1; c 1].

(** [Sbus] once the generator's reactive injection has been recomputed. *)
Definition Sbus_after : list (@Cx RC.numeric) := [c 0; c 1].

Definition ppopt (tol : R) (max_it verbose : Z) : @ppopt_t RC.numeric :=
  @mk_ppopt RC.numeric tol max_it verbose.

End Net2.

(** Three buses joined pairwise by lines of admittance 1, over the reals,
    with no load and no generation of active power: bus 0 is the
    reference, bus 1 a generator whose reactive injection is given as 1/2,
    bus 2 a load.  The flat profile solves it. *)
Module Flat3.

Definition Ybus : list (list (option (@Cx RC.numeric))) :=
  [[Some (Net2.c 2); Some (Net2.c (-1)); Some (Net2.c (-1))];
   [Some (Net2.c (-1)); Some (Net2.c 2); Some (Net2.c (-1))];
   [Some (Net2.c (-1)); Some (Net2.c (-1)); Some (Net2.c 2)]].
Definition Sbus : list (@Cx RC.numeric) := [Net2.c 0; (0, 1 / 2)%R; Net2.c 0].
Definition V0 : list (@Cx RC.numeric) := [Net2.c 1; Net2.c 1; Net2.c 1].

End Flat3.

(* ===================================================================== *)
(** ** Facts about the array operations and the sweep *)
(* ===================================================================== *)

Section SolverFacts.
Context `{N : Numeric}.

Implicit Types (V Sbus mis : list Cx) (Ybus : list (list (option Cx))).
Implicit Types (Vm F : list Re) (pv pq ref : list nat) (k j : nat).

Lemma update_bus_eq Ybus Sbus V k V' :
  update_bus Ybus Sbus V k = Some V' ->
  exists vk tmp, V !! k = Some vk /\ gs_correction Ybus Sbus V k = Some tmp /\
                 V' = <[k := cadd vk tmp]> V.
Proof.
  unfold update_bus. intros H.
  destruct (gs_correction Ybus Sbus V k) as [tmp|] eqn:Ht; simpl in H; [|done].
  destruct (V !! k) as [vk|] eqn:Hv; simpl in H; [|done].
  exists vk, tmp. by simplify_eq.
Qed.

Lemma update_bus_length Ybus Sbus V k V' :
  update_bus Ybus Sbus V k = Some V' -> length V' = length V.
Proof.
  intros (vk & tmp & _ & _ & ->)%update_bus_eq. by rewrite length_insert.
Qed.

Lemma update_bus_other Ybus Sbus V k V' j :
  update_bus Ybus Sbus V k = Some V' -> j <> k -> V' !! j = V !! j.
Proof.
  intros (vk & tmp & _ & _ & ->)%update_bus_eq Hne.
  by rewrite list_lookup_insert_ne.
Qed.

Lemma pq_update_length Ybus Sbus pq V V' :
  pq_update Ybus Sbus pq V = Some V' -> length V' = length V.
Proof.
  revert V. induction pq as [|k ks IH]; intros V H; simpl in H.
  - by simplify_eq.
  - destruct (update_bus Ybus Sbus V k) as [V1|] eqn:Hu; simpl in H; [|done].
    rewrite (IH _ H). by eapply update_bus_length.
Qed.

Lemma pq_update_other Ybus Sbus pq V V' j :
  pq_update Ybus Sbus pq V = Some V' -> j ∉ pq -> V' !! j = V !! j.
Proof.
  revert V. induction pq as [|k ks IH]; intros V H Hj; simpl in H.
  - by simplify_eq.
  - destruct (update_bus Ybus Sbus V k) as [V1|] eqn:Hu; simpl in H; [|done].
    apply not_elem_of_cons in Hj as [Hne Hj].
    rewrite (IH _ H Hj). by eapply update_bus_other.
Qed.

Lemma pq_update_app Ybus Sbus l1 l2 V :
  pq_update Ybus Sbus (l1 ++ l2) V =
  pq_update Ybus Sbus l1 V ≫= pq_update Ybus Sbus l2.
Proof.
  revert V. induction l1 as [|k ks IH]; intros V; simpl; [done|].
  destruct (update_bus Ybus Sbus V k) as [V1|]; simpl; [apply IH|done].
Qed.

Lemma pv_bus_eq Ybus k V Sbus V' Sbus' :
  pv_bus Ybus k (V, Sbus) = Some (V', Sbus') ->
  exists s, pv_injection Ybus Sbus V k = Some s /\
            Sbus' = <[k := s]> Sbus /\
            update_bus Ybus Sbus' V k = Some V'.
Proof.
  unfold pv_bus. intros H.
  destruct (pv_injection Ybus Sbus V k) as [s|] eqn:Hs; simpl in H; [|done].
  destruct (update_bus Ybus (<[k:=s]> Sbus) V k) as [V1|] eqn:Hu; simpl in H; [|done].
  exists s. by simplify_eq.
Qed.

Lemma pv_injection_eq Ybus Sbus V k s :
  pv_injection Ybus Sbus V k = Some s ->
  exists vk row yv sk,
    V !! k = Some vk /\ Ybus !! k = Some row /\ dot row V = Some yv /\
    Sbus !! k = Some sk /\
    s = cadd (of_real (real sk)) (cmul cj (of_real (imag (cmul vk (conj yv))))).
Proof.
  unfold pv_injection. intros H.
  destruct (V !! k) as [vk|]; simpl in H; [|done].
  destruct (Ybus !! k) as [row|]; simpl in H; [|done].
  destruct (dot row V) as [yv|] eqn:Hd; simpl in H; [|done].
  destruct (Sbus !! k) as [sk|]; simpl in H; [|done].
  exists vk, row, yv, sk. simplify_eq. repeat split; done.
Qed.

Lemma pv_loop_other Ybus pv V Sbus V' Sbus' j :
  pv_loop Ybus pv (V, Sbus) = Some (V', Sbus') -> j ∉ pv ->
  V' !! j = V !! j /\ Sbus' !! j = Sbus !! j.
Proof.
  revert V Sbus. induction pv as [|k ks IH]; intros V Sbus H Hj; cbn [pv_loop] in H.
  - by simplify_eq.
  - destruct (pv_bus Ybus k (V, Sbus)) as [[V1 S1]|] eqn:Hb; simpl in H; [|done].
    apply not_elem_of_cons in Hj as [Hne Hj].
    destruct (IH _ _ H Hj) as [-> ->].
    apply pv_bus_eq in Hb as (s & _ & -> & Hu).
    split; [by eapply update_bus_other|by rewrite list_lookup_insert_ne].
Qed.

Lemma pv_loop_length Ybus pv V Sbus V' Sbus' :
  pv_loop Ybus pv (V, Sbus) = Some (V', Sbus') ->
  length V' = length V /\ length Sbus' = length Sbus.
Proof.
  revert V Sbus. induction pv as [|k ks IH]; intros V Sbus H; cbn [pv_loop] in H.
  - by simplify_eq.
  - destruct (pv_bus Ybus k (V, Sbus)) as [[V1 S1]|] eqn:Hb; simpl in H; [|done].
    destruct (IH _ _ H) as [-> ->].
    apply pv_bus_eq in Hb as (s & _ & -> & Hu).
    split; [by eapply update_bus_length|by rewrite length_insert].
Qed.

(** **** Indexed reads and writes *)

Lemma take_idx_lookup {A} (a : list A) idx vals i k :
  take_idx a idx = Some vals -> idx !! i = Some k ->
  exists x, a !! k = Some x /\ vals !! i = Some x.
Proof.
  unfold take_idx. intros Hm Hi.
  apply mapM_Some in Hm.
  destruct (Forall2_lookup_l _ _ _ _ _ Hm Hi) as (x & Hx & Hk).
  by exists x.
Qed.

Lemma take_idx_length {A} (a : list A) idx vals :
  take_idx a idx = Some vals -> length vals = length idx.
Proof.
  unfold take_idx. intros Hm. apply mapM_Some in Hm.
  symmetry. by eapply Forall2_length.
Qed.

Lemma take_idx_in_range {A} (a : list A) idx vals k :
  take_idx a idx = Some vals -> k ∈ idx -> k < length a.
Proof.
  intros Hm (i & Hi)%list_elem_of_lookup.
  destruct (take_idx_lookup _ _ _ _ _ Hm Hi) as (x & Hx & _).
  by eapply lookup_lt_Some.
Qed.

Lemma assign_length {A} (a : list A) idx vals :
  length (assign a idx vals) = length a.
Proof.
  unfold assign. revert a vals.
  induction idx as [|k ks IH]; intros a [|x xs]; simpl; try done.
  by rewrite IH, length_insert.
Qed.

Lemma assign_other {A} (a : list A) idx vals j :
  j ∉ idx -> assign a idx vals !! j = a !! j.
Proof.
  unfold assign. revert a vals.
  induction idx as [|k ks IH]; intros a [|x xs] Hj; simpl; try done.
  apply not_elem_of_cons in Hj as [Hne Hj].
  rewrite IH by done. by rewrite list_lookup_insert_ne.
Qed.

(** When every value written at an index is [g] of that index, the entry
    of an assigned index is [g] of it, whatever the repetitions. *)
Lemma assign_lookup {A} (g : nat -> A) (a : list A) idx vals k :
  length vals = length idx ->
  (forall i k' x, idx !! i = Some k' -> vals !! i = Some x -> x = g k') ->
  k ∈ idx -> k < length a ->
  assign a idx vals !! k = Some (g k).
Proof.
  unfold assign. revert a vals.
  induction idx as [|k' ks IH]; intros a [|x xs] Hlen Hg Hk Hlt; simpl in *;
    try done.
  - by apply elem_of_nil in Hk.
  - destruct (decide (k ∈ ks)) as [Hin|Hnin].
    + apply IH; [lia| |done|by rewrite length_insert].
      intros i k'' y Hi Hy. by apply (Hg (S i)).
    + apply elem_of_cons in Hk as [->|]; [|done].
      fold (assign (<[k':=x]> a) ks xs). rewrite assign_other by done.
      rewrite (Hg 0 k' x) by done. by apply list_lookup_insert_eq.
Qed.

Lemma renormalize_length Vm pv V V' :
  renormalize Vm pv V = Some V' -> length V' = length V.
Proof.
  unfold renormalize. intros H.
  destruct (take_idx Vm pv) as [m|]; simpl in H; [|done].
  destruct (take_idx V pv) as [v|]; simpl in H; [|done].
  simplify_eq. apply assign_length.
Qed.

Lemma renormalize_other Vm pv V V' j :
  renormalize Vm pv V = Some V' -> j ∉ pv -> V' !! j = V !! j.
Proof.
  unfold renormalize. intros H Hj.
  destruct (take_idx Vm pv) as [m|]; simpl in H; [|done].
  destruct (take_idx V pv) as [v|]; simpl in H; [|done].
  simplify_eq. by apply assign_other.
Qed.

(** After line 104 the entry of a PV bus is its set-point magnitude times
    the direction of the voltage the loop left there. *)
Lemma renormalize_lookup Vm pv V V' k :
  renormalize Vm pv V = Some V' -> k ∈ pv ->
  exists mk vk, Vm !! k = Some mk /\ V !! k = Some vk /\
    V' !! k = Some (cdiv (cmul (of_real mk) vk) (of_real (cabs vk))).
Proof.
  unfold renormalize. intros H Hk.
  destruct (take_idx Vm pv) as [m|] eqn:Hm; simpl in H; [|done].
  destruct (take_idx V pv) as [v|] eqn:Hv; simpl in H; [|done].
  simplify_eq.
  pose proof Hk as (i & Hi)%list_elem_of_lookup.
  destruct (take_idx_lookup _ _ _ _ _ Hm Hi) as (mk & Hmk & _).
  destruct (take_idx_lookup _ _ _ _ _ Hv Hi) as (vk & Hvk & _).
  exists mk, vk. split; [done|]. split; [done|].
  set (h := λ (a : Re) (b : Cx), cdiv (cmul (of_real a) b) (of_real (cabs b))).
  pose (g := λ k', match Vm !! k', V !! k' with
                    | Some a, Some b => h a b
                    | _, _ => c0
                    end).
  change (assign V pv (zip_with h m v) !! k = Some (h mk vk)).
  replace (h mk vk) with (g k) by (unfold g; by rewrite Hmk, Hvk).
  apply assign_lookup.
  - rewrite length_zip_with, (take_idx_length _ _ _ Hm), (take_idx_length _ _ _ Hv). lia.
  - intros i' k' x Hi' Hx.
    destruct (take_idx_lookup _ _ _ _ _ Hm Hi') as (a & Ha & Hma).
    destruct (take_idx_lookup _ _ _ _ _ Hv Hi') as (b & Hb & Hvb).
    rewrite lookup_zip_with, Hma, Hvb in Hx. simpl in Hx. simplify_eq.
    unfold g. by rewrite Ha, Hb.
  - done.
  - by eapply lookup_lt_Some.
Qed.

(** **** The sweep *)

Lemma pv_update_nil Ybus Vm st : pv_update Ybus Vm [] st = Some st.
Proof. done. Qed.

Lemma pv_update_eq Ybus Vm pv V Sbus V' Sbus' :
  pv_update Ybus Vm pv (V, Sbus) = Some (V', Sbus') -> pv <> [] ->
  exists V2, pv_loop Ybus pv (V, Sbus) = Some (V2, Sbus') /\
             renormalize Vm pv V2 = Some V'.
Proof.
  unfold pv_update. intros H Hne.
  destruct (decide (length pv = 0)) as [Hl|_].
  { by destruct pv. }
  destruct (pv_loop Ybus pv (V, Sbus)) as [[V2 S2]|]; simpl in H; [|done].
  destruct (renormalize Vm pv V2) as [V3|] eqn:Hr; simpl in H; [|done].
  simplify_eq. by exists V2.
Qed.

Lemma pv_update_other Ybus Vm pv V Sbus V' Sbus' j :
  pv_update Ybus Vm pv (V, Sbus) = Some (V', Sbus') -> j ∉ pv ->
  V' !! j = V !! j /\ Sbus' !! j = Sbus !! j.
Proof.
  intros H Hj. destruct pv as [|k ks].
  { rewrite pv_update_nil in H. by simplify_eq. }
  apply pv_update_eq in H as (V2 & Hl & Hr); [|done].
  destruct (pv_loop_other _ _ _ _ _ _ _ Hl Hj) as [<- ->].
  split; [by eapply renormalize_other|done].
Qed.

Lemma pv_update_length Ybus Vm pv V Sbus V' Sbus' :
  pv_update Ybus Vm pv (V, Sbus) = Some (V', Sbus') ->
  length V' = length V /\ length Sbus' = length Sbus.
Proof.
  intros H. destruct pv as [|k ks].
  { rewrite pv_update_nil in H. by simplify_eq. }
  apply pv_update_eq in H as (V2 & Hl & Hr); [|done].
  destruct (pv_loop_length _ _ _ _ _ _ Hl) as [<- ->].
  split; [by eapply renormalize_length|done].
Qed.

Lemma gs_sweep_eq Ybus Vm pv pq V Sbus V' Sbus' :
  gs_sweep Ybus Vm pv pq (V, Sbus) = Some (V', Sbus') ->
  exists V1, pq_update Ybus Sbus pq V = Some V1 /\
             pv_update Ybus Vm pv (V1, Sbus) = Some (V', Sbus').
Proof.
  unfold gs_sweep. simpl. intros H.
  destruct (pq_update Ybus Sbus pq V) as [V1|]; simpl in H; [|done].
  by exists V1.
Qed.

(** A sweep writes [V] at the buses of [pq] and [pv] only, and [Sbus] at
    the buses of [pv] only. *)
Lemma gs_sweep_V_other Ybus Vm pv pq V Sbus V' Sbus' j :
  gs_sweep Ybus Vm pv pq (V, Sbus) = Some (V', Sbus') ->
  j ∉ pq -> j ∉ pv -> V' !! j = V !! j.
Proof.
  intros (V1 & Hq & Hv)%gs_sweep_eq Hpq Hpv.
  destruct (pv_update_other _ _ _ _ _ _ _ _ Hv Hpv) as [-> _].
  by eapply pq_update_other.
Qed.

Lemma gs_sweep_Sbus_other Ybus Vm pv pq V Sbus V' Sbus' j :
  gs_sweep Ybus Vm pv pq (V, Sbus) = Some (V', Sbus') ->
  j ∉ pv -> Sbus' !! j = Sbus !! j.
Proof.
  intros (V1 & Hq & Hv)%gs_sweep_eq Hpv.
  by destruct (pv_update_other _ _ _ _ _ _ _ _ Hv Hpv) as [_ ->].
Qed.

Lemma gs_sweep_length Ybus Vm pv pq V Sbus V' Sbus' :
  gs_sweep Ybus Vm pv pq (V, Sbus) = Some (V', Sbus') ->
  length V' = length V /\ length Sbus' = length Sbus.
Proof.
  intros (V1 & Hq & Hv)%gs_sweep_eq.
  destruct (pv_update_length _ _ _ _ _ _ _ Hv) as [-> ->].
  split; [by eapply pq_update_length|done].
Qed.

(** **** The while loop *)

(** The loop, one test at a time. *)
Lemma gs_while_step Ybus Vm pv pq tol max_it verbose i (s : gs_state) :
  gs_while Ybus Vm pv pq tol max_it verbose i s =
  if negb (st_converged s) && (i <? max_it)%Z
  then gs_iteration Ybus Vm pv pq tol verbose (i + 1) s
         ≫= gs_while Ybus Vm pv pq tol max_it verbose (i + 1)
  else Some (i, s).
Proof.
  funelim (gs_while Ybus Vm pv pq tol max_it verbose i s);
    rewrite Hcond; [done| |];
    match goal with
    | E : gs_iteration _ _ _ _ _ _ _ _ = _ |- _ => by rewrite E
    end.
Qed.

(** What one pass of the body yields, stage by stage. *)
Lemma gs_iteration_eq Ybus Vm pv pq tol verbose i (s s' : gs_state) :
  gs_iteration Ybus Vm pv pq tol verbose i s = Some s' ->
  exists mis F,
    gs_sweep Ybus Vm pv pq (st_V s, st_Sbus s) = Some (st_V s', st_Sbus s') /\
    mismatch Ybus (st_Sbus s') (st_V s') = Some mis /\
    F_loop mis pv pq = Some F /\
    norm_inf F = Some (st_normF s') /\
    st_converged s' = rltb (st_normF s') tol || st_converged s.
Proof.
  unfold gs_iteration. intros H.
  destruct (gs_sweep Ybus Vm pv pq (st_V s, st_Sbus s)) as [[V' S']|] eqn:Hs;
    simpl in H; [|done].
  destruct (mismatch Ybus S' V') as [mis|] eqn:Hm; simpl in H; [|done].
  destruct (F_loop mis pv pq) as [F|] eqn:HF; simpl in H; [|done].
  destruct (norm_inf F) as [normF|] eqn:Hn; simpl in H; [|done].
  exists mis, F.
  destruct (rltb normF tol) eqn:Hlt; simplify_eq; simpl; rewrite ?Hlt; done.
Qed.

(** Loop invariants: a property kept by every pass of the body holds when
    the loop is left, and the loop is left only once [converged] is set or
    the counter has reached [max_it]. *)
Lemma gs_while_invariant Ybus Vm pv pq tol max_it verbose
    (P : Z -> gs_state -> Prop) :
  (forall i s s', st_converged s = false -> (i < max_it)%Z -> P i s ->
     gs_iteration Ybus Vm pv pq tol verbose (i + 1) s = Some s' ->
     P (i + 1)%Z s') ->
  forall i s r, P i s ->
    gs_while Ybus Vm pv pq tol max_it verbose i s = Some r ->
    P r.1 r.2 /\ (st_converged r.2 = true \/ (max_it <= r.1)%Z).
Proof.
  intros Hstep i s r HP Hw.
  remember (Z.to_nat (max_it - i)) as n eqn:Hn.
  revert i s HP Hw Hn. induction (lt_wf n) as [n _ IH]. intros i s HP Hw Hn.
  rewrite gs_while_step in Hw.
  destruct (st_converged s) eqn:Hc; simpl in Hw.
  { simplify_eq. simpl. auto. }
  destruct (i <? max_it)%Z eqn:Hlt; simpl in Hw.
  - apply Z.ltb_lt in Hlt.
    destruct (gs_iteration Ybus Vm pv pq tol verbose (i + 1) s) as [s'|] eqn:Hi;
      simpl in Hw; [|done].
    eapply (IH (Z.to_nat (max_it - (i + 1)))); [lia| |exact Hw|done].
    by eapply Hstep.
  - apply Z.ltb_ge in Hlt. simplify_eq. simpl. auto.
Qed.

(** **** The solver, stage by stage *)

Lemma gausspf_eq ppoption Ybus Sbus (V0 : list Cx) ref pv pq ppopt o :
  gausspf ppoption Ybus Sbus V0 ref pv pq ppopt = Some o ->
  let opt := default ppoption ppopt in
  exists mis F normF w s,
    mismatch Ybus Sbus V0 = Some mis /\
    F_initial mis pv pq = Some F /\
    norm_inf F = Some normF /\
    gs_while Ybus (cabs <$> V0) pv pq (PF_TOL opt) (PF_MAX_IT_GS opt)
      (VERBOSE opt) 0
      (mk_state V0 Sbus (rltb normF (PF_TOL opt)) normF w) = Some (out_i o, s) /\
    out_V o = st_V s /\ out_converged o = st_converged s /\
    out_Sbus o = st_Sbus s /\ out_normF o = st_normF s.
Proof.
  intros H. unfold gausspf in H. cbv zeta in H |- *.
  set (opt := default ppoption ppopt) in *.
  destruct (mismatch Ybus Sbus V0) as [mis|] eqn:Hm; simpl in H; [|done].
  destruct (F_initial mis pv pq) as [F|] eqn:HF; simpl in H; [|done].
  destruct (norm_inf F) as [normF|] eqn:Hn; simpl in H; [|done].
  match type of H with
  | gs_while _ _ _ _ _ _ _ _ ?s0 ≫= _ = _ =>
      destruct (gs_while Ybus (cabs <$> V0) pv pq (PF_TOL opt)
                  (PF_MAX_IT_GS opt) (VERBOSE opt) 0 s0) as [[i s]|] eqn:Hw;
      simpl in H; [|done]
  end.
  simplify_eq. simpl. eexists mis, F, normF, _, s. by rewrite Hw.
Qed.

(** When the test of line 86 fails at once, the function returns what it
    was given. *)
Lemma gausspf_no_sweep ppoption Ybus Sbus (V0 : list Cx) ref pv pq ppopt mis F n :
  let opt := default ppoption ppopt in
  mismatch Ybus Sbus V0 = Some mis ->
  F_initial mis pv pq = Some F ->
  norm_inf F = Some n ->
  negb (rltb n (PF_TOL opt)) && (0 <? PF_MAX_IT_GS opt)%Z = false ->
  exists w, gausspf ppoption Ybus Sbus V0 ref pv pq ppopt =
            Some (mk_outcome V0 (rltb n (PF_TOL opt)) 0 Sbus n w).
Proof.
  intros opt Hm HF Hn Hc. unfold gausspf. cbv zeta. fold opt.
  rewrite Hm. simpl. rewrite HF. simpl. rewrite Hn. simpl.
  rewrite gs_while_step. simpl. rewrite Hc. simpl. by eexists.
Qed.

(** The loop never clears [converged], and sets it exactly when the norm
    it has just computed is below the tolerance. *)
Lemma gs_while_converged Ybus Vm pv pq tol max_it verbose i (s : gs_state) r :
  st_converged s = rltb (st_normF s) tol ->
  gs_while Ybus Vm pv pq tol max_it verbose i s = Some r ->
  st_converged r.2 = rltb (st_normF r.2) tol.
Proof.
  intros H0 Hw.
  apply (gs_while_invariant Ybus Vm pv pq tol max_it verbose
           (λ _ s, st_converged s = rltb (st_normF s) tol)) in Hw as [? _];
    [done| |done].
  intros i' s1 s2 Hc _ _ (mis & F & _ & _ & _ & _ & Hconv)%gs_iteration_eq.
  by rewrite Hconv, Hc, orb_false_r.
Qed.

(** The counter never passes [max_it] once it starts at or below it. *)
Lemma gs_while_counter Ybus Vm pv pq tol max_it verbose i (s : gs_state) r :
  (i <= max_it)%Z ->
  gs_while Ybus Vm pv pq tol max_it verbose i s = Some r ->
  (i <= r.1 <= max_it)%Z.
Proof.
  intros Hi Hw.
  apply (gs_while_invariant Ybus Vm pv pq tol max_it verbose
           (λ (c : Z) _, (i <= c <= max_it)%Z)) in Hw as [? _]; [done| |lia].
  intros. lia.
Qed.

(** What the loop leaves in [V] and [Sbus] away from the buses it visits. *)
Lemma gs_while_frame Ybus Vm pv pq tol max_it verbose i (s : gs_state) r :
  gs_while Ybus Vm pv pq tol max_it verbose i s = Some r ->
  (forall j, j ∉ pq -> j ∉ pv -> st_V r.2 !! j = st_V s !! j) /\
  (forall j, j ∉ pv -> st_Sbus r.2 !! j = st_Sbus s !! j) /\
  length (st_V r.2) = length (st_V s) /\
  length (st_Sbus r.2) = length (st_Sbus s).
Proof.
  intros Hw.
  apply (gs_while_invariant Ybus Vm pv pq tol max_it verbose
           (λ _ s', (forall j, j ∉ pq -> j ∉ pv -> st_V s' !! j = st_V s !! j) /\
                    (forall j, j ∉ pv -> st_Sbus s' !! j = st_Sbus s !! j) /\
                    length (st_V s') = length (st_V s) /\
                    length (st_Sbus s') = length (st_Sbus s))) in Hw as [? _];
    [done| |done].
  intros i' s1 s2 _ _ (HV & HS & HlV & HlS)
    (mis & F & Hsw & _)%gs_iteration_eq.
  destruct (gs_sweep_length _ _ _ _ _ _ _ _ Hsw) as [HlV' HlS'].
  repeat split.
  - intros j Hq Hp. rewrite <- HV by done. by eapply gs_sweep_V_other.
  - intros j Hp. rewrite <- HS by done. by eapply gs_sweep_Sbus_other.
  - by rewrite HlV'.
  - by rewrite HlS'.
Qed.

(** **** The sweeps of a call *)

Lemma sweeps_snoc Ybus Vm pv pq n st :
  sweeps Ybus Vm pv pq (S n) st =
  sweeps Ybus Vm pv pq n st ≫= gs_sweep Ybus Vm pv pq.
Proof.
  revert st. induction n as [|n IH]; intros st.
  - cbn [sweeps mbind option_bind]. by destruct (gs_sweep Ybus Vm pv pq st).
  - change (sweeps Ybus Vm pv pq (S (S n)) st)
      with (gs_sweep Ybus Vm pv pq st ≫= sweeps Ybus Vm pv pq (S n)).
    change (sweeps Ybus Vm pv pq (S n) st)
      with (gs_sweep Ybus Vm pv pq st ≫= sweeps Ybus Vm pv pq n).
    destruct (gs_sweep Ybus Vm pv pq st) as [st1|]; [|done].
    cbn [mbind option_bind]. apply IH.
Qed.

(** Every sweep before the last one of a sequence was made as well. *)
Lemma sweeps_prefix Ybus Vm pv pq m n st r :
  sweeps Ybus Vm pv pq m st = Some r -> n < m ->
  exists st1 st2,
    sweeps Ybus Vm pv pq n st = Some st1 /\
    gs_sweep Ybus Vm pv pq st1 = Some st2 /\
    sweeps Ybus Vm pv pq (S n) st = Some st2.
Proof.
  revert r. induction m as [|m IH]; intros r Hm Hn; [lia|].
  rewrite sweeps_snoc in Hm.
  destruct (sweeps Ybus Vm pv pq m st) as [st1|] eqn:H1;
    cbn [mbind option_bind] in Hm; [|done].
  destruct (decide (n = m)) as [->|Hne].
  - exists st1, r. split; [done|]. split; [done|].
    rewrite sweeps_snoc, H1. done.
  - apply (IH st1); [done|lia].
Qed.

(** What a call returns is what as many sweeps as it counts make of [V0]
    and [Sbus], with the magnitudes of [V0] as set-points. *)
Lemma gausspf_sweeps ppoption Ybus Sbus (V0 : list Cx) ref pv pq ppopt o :
  gausspf ppoption Ybus Sbus V0 ref pv pq ppopt = Some o ->
  (0 <= out_i o)%Z /\
  sweeps Ybus (cabs <$> V0) pv pq (Z.to_nat (out_i o)) (V0, Sbus) =
    Some (out_V o, out_Sbus o).
Proof.
  intros Hg.
  apply gausspf_eq in Hg as (mis & F & n & w & s & _ & _ & _ & Hw & HV & _ & HS & _).
  rewrite HV, HS.
  apply (gs_while_invariant _ _ _ _ _ _ _
           (λ (i : Z) s',
              (0 <= i)%Z /\
              sweeps Ybus (cabs <$> V0) pv pq (Z.to_nat i) (V0, Sbus) =
                Some (st_V s', st_Sbus s'))) in Hw as [? _]; [done| |done].
  intros i s1 s2 _ _ [Hi Hs] (mis' & F' & Hsw & _)%gs_iteration_eq.
  split; [lia|].
  replace (Z.to_nat (i + 1)) with (S (Z.to_nat i)) by lia.
  rewrite sweeps_snoc, Hs. exact Hsw.
Qed.

(** Sweep [n + 1] of a call that counts more than [n] sweeps, in its two
    parts. *)
Lemma gausspf_sweep ppoption Ybus Sbus (V0 : list Cx) ref pv pq ppopt o (n : nat) :
  gausspf ppoption Ybus Sbus V0 ref pv pq ppopt = Some o ->
  (Z.of_nat n < out_i o)%Z ->
  exists V Sb V1 st',
    sweeps Ybus (cabs <$> V0) pv pq n (V0, Sbus) = Some (V, Sb) /\
    pq_update Ybus Sb pq V = Some V1 /\
    pv_update Ybus (cabs <$> V0) pv (V1, Sb) = Some st' /\
    sweeps Ybus (cabs <$> V0) pv pq (S n) (V0, Sbus) = Some st'.
Proof.
  intros Hg Hn.
  destruct (gausspf_sweeps _ _ _ _ _ _ _ _ _ Hg) as [Hi Hs].
  destruct (sweeps_prefix _ _ _ _ _ n _ _ Hs) as ([V Sb] & [V' Sb'] & H1 & H2 & H3);
    [lia|].
  apply gs_sweep_eq in H2 as (V1 & Hq & Hv).
  by exists V, Sb, V1, (V', Sb').
Qed.

(** **** The active part of [Sbus]

    Line 100 rebuilds [Sbus[k]] from its real part [r] and a new
    imaginary part [q].  What the real part of the result is depends on
    the arithmetic; whatever relation [P] between the real part an entry
    had at first and the one it has now is kept by this step is kept by
    any number of sweeps. *)
Section RealPart.
Variable P : Re -> Re -> Prop.
Hypothesis P_step : forall r r' q,
  P r r' -> P r (real (cadd (of_real r') (cmul cj (of_real q)))).
Variable S0 : list Cx.

Lemma pv_bus_real Ybus k V Sbus V' Sbus' :
  (forall j s0 s, S0 !! j = Some s0 -> Sbus !! j = Some s -> P (real s0) (real s)) ->
  pv_bus Ybus k (V, Sbus) = Some (V', Sbus') ->
  forall j s0 s, S0 !! j = Some s0 -> Sbus' !! j = Some s -> P (real s0) (real s).
Proof using P_step.
  intros HP (s' & Hs & -> & _)%pv_bus_eq j s0 s H0 Hj.
  apply pv_injection_eq in Hs as (vk & row & yv & sk & _ & _ & _ & Hsk & ->).
  destruct (decide (j = k)) as [->|Hne].
  - rewrite list_lookup_insert_eq in Hj by (by eapply lookup_lt_Some).
    simplify_eq. apply P_step. by eapply HP.
  - rewrite list_lookup_insert_ne in Hj by done. by eapply HP.
Qed.

Lemma pv_loop_real Ybus pv V Sbus V' Sbus' :
  (forall j s0 s, S0 !! j = Some s0 -> Sbus !! j = Some s -> P (real s0) (real s)) ->
  pv_loop Ybus pv (V, Sbus) = Some (V', Sbus') ->
  forall j s0 s, S0 !! j = Some s0 -> Sbus' !! j = Some s -> P (real s0) (real s).
Proof using P_step.
  revert V Sbus.
  induction pv as [|k ks IH]; intros V Sbus HP H; cbn [pv_loop] in H.
  - by simplify_eq.
  - destruct (pv_bus Ybus k (V, Sbus)) as [[V1 S1]|] eqn:Hb;
      cbn [mbind option_bind] in H; [|done].
    apply (IH V1 S1); [|done]. by eapply pv_bus_real.
Qed.

Lemma gs_sweep_real Ybus Vm pv pq V Sbus V' Sbus' :
  (forall j s0 s, S0 !! j = Some s0 -> Sbus !! j = Some s -> P (real s0) (real s)) ->
  gs_sweep Ybus Vm pv pq (V, Sbus) = Some (V', Sbus') ->
  forall j s0 s, S0 !! j = Some s0 -> Sbus' !! j = Some s -> P (real s0) (real s).
Proof using P_step.
  intros HP (V1 & _ & Hv)%gs_sweep_eq.
  destruct pv as [|k ks].
  { rewrite pv_update_nil in Hv. by simplify_eq. }
  apply pv_update_eq in Hv as (V2 & Hl & _); [|done].
  by eapply pv_loop_real.
Qed.

Lemma sweeps_real Ybus Vm pv pq n V Sbus V' Sbus' :
  (forall j s0 s, S0 !! j = Some s0 -> Sbus !! j = Some s -> P (real s0) (real s)) ->
  sweeps Ybus Vm pv pq n (V, Sbus) = Some (V', Sbus') ->
  forall j s0 s, S0 !! j = Some s0 -> Sbus' !! j = Some s -> P (real s0) (real s).
Proof using P_step.
  revert V Sbus. induction n as [|n IH]; intros V Sbus HP H; cbn [sweeps] in H.
  - by simplify_eq.
  - destruct (gs_sweep Ybus Vm pv pq (V, Sbus)) as [[V1 S1]|] eqn:Hs;
      cbn [mbind option_bind] in H; [|done].
    apply (IH V1 S1); [|done]. by eapply gs_sweep_real.
Qed.

End RealPart.

(** A row sum, from the sum written out. *)
Lemma dot_eq (row : list (option Cx)) V (yv : Cx) :
  dot row V = Some yv ->
  length row = length V /\
  yv = foldl (λ acc p, match p.1 with
                       | Some y => cadd acc (cmul y p.2)
                       | None => acc
                       end) c0 (zip row V).
Proof.
  unfold dot. destruct (decide (length row = length V)); [|done].
  by intros [= <-].
Qed.

Lemma gs_correction_eq Ybus Sbus V k tmp :
  gs_correction Ybus Sbus V k = Some tmp ->
  exists sk vk row yv e,
    Sbus !! k = Some sk /\ V !! k = Some vk /\ Ybus !! k = Some row /\
    dot row V = Some yv /\ row !! k = Some e /\
    tmp = cdiv (csub (conj (cdiv sk vk)) yv) (default c0 e).
Proof.
  unfold gs_correction. intros H.
  destruct (Sbus !! k) as [sk|]; simpl in H; [|done].
  destruct (V !! k) as [vk|]; simpl in H; [|done].
  destruct (Ybus !! k) as [row|]; simpl in H; [|done].
  destruct (dot row V) as [yv|] eqn:Hd; simpl in H; [|done].
  destruct (row !! k) as [e|] eqn:Hk; simpl in H; [|done].
  exists sk, vk, row, yv, e. simplify_eq. repeat split; done.
Qed.

Lemma pv_loop_app Ybus l1 l2 st :
  pv_loop Ybus (l1 ++ l2) st = pv_loop Ybus l1 st ≫= pv_loop Ybus l2.
Proof.
  revert st. induction l1 as [|k ks IH]; intros st; cbn [pv_loop app]; [done|].
  destruct (pv_bus Ybus k st) as [st1|]; simpl; [apply IH|done].
Qed.

(** **** Output does not feed back into the computation *)

Lemma gs_iteration_erase Ybus Vm pv pq tol v1 v2 i (s1 s2 : gs_state) :
  erase s1 = erase s2 ->
  erase <$> gs_iteration Ybus Vm pv pq tol v1 i s1 =
  erase <$> gs_iteration Ybus Vm pv pq tol v2 i s2.
Proof.
  destruct s1 as [V1 S1 c1 n1 w1], s2 as [V2 S2 c2 n2 w2].
  unfold erase, gs_iteration. simpl. intros [= -> -> -> ->].
  destruct (gs_sweep Ybus Vm pv pq (V2, S2)) as [st|]; simpl; [|done].
  destruct (mismatch Ybus st.2 st.1) as [mis|]; simpl; [|done].
  destruct (F_loop mis pv pq) as [F|]; simpl; [|done].
  destruct (norm_inf F) as [n|]; simpl; [|done].
  by destruct (rltb n tol).
Qed.

Lemma gs_while_erase Ybus Vm pv pq tol max_it v1 v2 i (s1 s2 : gs_state) :
  erase s1 = erase s2 ->
  prod_map (@Datatypes.id Z) erase <$> gs_while Ybus Vm pv pq tol max_it v1 i s1 =
  prod_map (@Datatypes.id Z) erase <$> gs_while Ybus Vm pv pq tol max_it v2 i s2.
Proof.
  remember (Z.to_nat (max_it - i)) as n eqn:Hn.
  revert i s1 s2 Hn. induction (lt_wf n) as [n _ IH]. intros i s1 s2 Hn He.
  rewrite !gs_while_step.
  assert (st_converged s1 = st_converged s2) as ->
    by (by apply (f_equal st_converged) in He).
  destruct (negb (st_converged s2) && (i <? max_it)%Z) eqn:Hc; simpl.
  - apply andb_prop in Hc as [_ Hlt]. apply Z.ltb_lt in Hlt.
    pose proof (gs_iteration_erase Ybus Vm pv pq tol v1 v2 (i + 1) _ _ He) as Hi.
    destruct (gs_iteration Ybus Vm pv pq tol v1 (i + 1) s1) as [s1'|],
             (gs_iteration Ybus Vm pv pq tol v2 (i + 1) s2) as [s2'|];
      simpl in *; try done.
    apply (IH (Z.to_nat (max_it - (i + 1)))); [lia|done|congruence].
  - by rewrite He.
Qed.

(** A sweep of a network with one PV bus and no PQ bus, from its parts. *)
Lemma gs_sweep_single_pv Ybus Vm k V Sbus (s : Cx) V1 V2 :
  pv_injection Ybus Sbus V k = Some s ->
  update_bus Ybus (<[k := s]> Sbus) V k = Some V1 ->
  renormalize Vm [k] V1 = Some V2 ->
  pv_loop Ybus [k] (V, Sbus) = Some (V1, <[k := s]> Sbus) /\
  gs_sweep Ybus Vm [k] [] (V, Sbus) = Some (V2, <[k := s]> Sbus).
Proof.
  intros Hs Hu Hr. unfold gs_sweep, pv_update, pv_loop, pv_bus. simpl.
  rewrite Hs. simpl. rewrite Hu. simpl. by rewrite Hr.
Qed.

End SolverFacts.

(* ===================================================================== *)
(** ** Facts about the exact arithmetic *)
(* ===================================================================== *)

Section ExactFacts.
Local Open Scope R_scope.

Lemma RC_abs_nonneg (v : RC.cx) : 0 <= RC.abs v.
Proof. apply sqrt_pos. Qed.

(** Renormalizing a voltage that is not zero gives one of the magnitude
    asked for. *)
Lemma RC_renorm_abs (m : R) (v : RC.cx) :
  0 <= m -> v <> (0, 0) ->
  RC.abs (RC.div (RC.mul (m, 0) v) (RC.abs v, 0)) = m.
Proof.
  destruct v as [a b]. intros Hm Hv.
  assert (0 < a * a + b * b) as Hpos.
  { destruct (Req_dec a 0) as [->|Ha]; [destruct (Req_dec b 0) as [->|Hb]|].
    - done.
    - nra.
    - nra. }
  unfold RC.abs, RC.div, RC.mul. simpl.
  set (r := R_sqrt.sqrt (a * a + b * b)).
  assert (r * r = a * a + b * b) as Hr by (apply sqrt_sqrt; lra).
  assert (0 < r) as Hrpos by (apply sqrt_lt_R0; lra).
  match goal with |- R_sqrt.sqrt ?e = _ => replace e with (m * m) end.
  { by apply sqrt_square. }
  transitivity (m * m * ((a * a + b * b) / (r * r))).
  - rewrite <- Hr. field. lra.
  - field. lra.
Qed.

End ExactFacts.

(* ===================================================================== *)
(** ** Facts about binary64 *)
(* ===================================================================== *)

(** Line 100 computes [Sbus[k].real + 1j * tmp]: Python multiplies [1j]
    by [tmp + 0j] and adds the product to [Sbus[k].real + 0j], so the new
    real part is [r + (0 * q - 1 * 0)] for the old real part [r] and
    [q = tmp].  These facts follow from the specification of the
    operations of binary64. *)
Section Binary64Facts.
Local Open Scope float_scope.

Lemma SFeqb_finite_refl s m e :
  SFeqb (S754_finite s m e) (S754_finite s m e) = true.
Proof.
  unfold SFeqb, SFcompare.
  destruct s; rewrite Z.compare_refl, Pos.compare_cont_refl; reflexivity.
Qed.

(** The sum [x + (0 * y - 0)]: a NaN when [y] is an infinity or a NaN, a
    zero when [x] is one, and [x] otherwise. *)
Lemma SF64_rebuild (x y : spec_float) :
  let x' := SF64add x (SF64sub (SF64mul (S754_zero false) y) (S754_zero false)) in
  match y with
  | S754_nan | S754_infinity _ => x' = S754_nan
  | _ => match x with
         | S754_zero _ => exists s, x' = S754_zero s
         | _ => x' = x
         end
  end.
Proof.
  destruct y as [sy|sy| |sy my ey]; destruct x as [sx|sx| |sx mx ex]; cbn;
    try reflexivity; destruct sy, sx; cbn; eauto.
Qed.

Lemma F64_finite_cases (q : float) :
  PrimFloat.is_finite q =
  match Prim2SF q with S754_nan | S754_infinity _ => false | _ => true end.
Proof.
  unfold PrimFloat.is_finite, PrimFloat.is_nan, PrimFloat.is_infinity.
  rewrite !FloatAxioms.eqb_spec, abs_spec.
  change (Prim2SF infinity) with (S754_infinity false).
  destruct (Prim2SF q) as [s|s| |s m e].
  - reflexivity.
  - by destruct s.
  - reflexivity.
  - rewrite SFeqb_finite_refl. reflexivity.
Qed.

Lemma F64_kept_refl (r : float) : F64.kept_or_nan r r = true.
Proof. unfold F64.kept_or_nan, PrimFloat.is_nan. apply orb_negb_r. Qed.

(** The real part stays the number it was, or becomes a NaN. *)
Lemma F64_kept_step (r r' q : float) :
  F64.kept_or_nan r r' = true ->
  F64.kept_or_nan r (r' + (0 * q - 1 * 0)) = true.
Proof.
  unfold F64.kept_or_nan, PrimFloat.is_nan.
  rewrite !FloatAxioms.eqb_spec, !add_spec, !sub_spec, !mul_spec.
  change (Prim2SF 0) with (S754_zero false).
  change (SF64mul (Prim2SF 1) (S754_zero false)) with (S754_zero false).
  pose proof (SF64_rebuild (Prim2SF r') (Prim2SF q)) as H. cbv zeta in H.
  intros Hk.
  destruct (Prim2SF q) as [sy|sy| |sy my ey];
    try (rewrite H; apply orb_true_r);
    (destruct (Prim2SF r') as [sx|sx| |sx mx ex];
     [ destruct H as [s ->]; destruct (Prim2SF r) as [?|?| |? ? ?]; cbn in *;
       try reflexivity; try discriminate Hk;
       repeat match goal with b : bool |- _ => destruct b end; cbn in *; congruence
     | rewrite H; exact Hk
     | rewrite H; exact Hk
     | rewrite H; exact Hk ]).
Qed.

(** With a finite imaginary part the real part is the number it was (a
    NaN stays a NaN). *)
Lemma F64_rebuild_finite (r q : float) :
  PrimFloat.is_finite q = true ->
  F64.same (r + (0 * q - 1 * 0)) r = true.
Proof.
  rewrite F64_finite_cases.
  unfold F64.same, PrimFloat.is_nan.
  rewrite !FloatAxioms.eqb_spec, !add_spec, !sub_spec, !mul_spec.
  change (Prim2SF 0) with (S754_zero false).
  change (SF64mul (Prim2SF 1) (S754_zero false)) with (S754_zero false).
  pose proof (SF64_rebuild (Prim2SF r) (Prim2SF q)) as H. cbv zeta in H.
  destruct (Prim2SF q) as [sy|sy| |sy my ey]; try discriminate; intros _;
    (destruct (Prim2SF r) as [sx|sx| |sx mx ex];
     [ destruct H as [s ->]; reflexivity
     | rewrite H; by destruct sx
     | rewrite H; reflexivity
     | rewrite H, SFeqb_finite_refl; reflexivity ]).
Qed.

(** With an imaginary part that is not finite the real part is a NaN. *)
Lemma F64_rebuild_not_finite (r q : float) :
  PrimFloat.is_finite q = false ->
  PrimFloat.is_nan (r + (0 * q - 1 * 0)) = true.
Proof.
  rewrite F64_finite_cases.
  unfold PrimFloat.is_nan.
  rewrite !FloatAxioms.eqb_spec, !add_spec, !sub_spec, !mul_spec.
  change (Prim2SF 0) with (S754_zero false).
  change (SF64mul (Prim2SF 1) (S754_zero false)) with (S754_zero false).
  pose proof (SF64_rebuild (Prim2SF r) (Prim2SF q)) as H. cbv zeta in H.
  destruct (Prim2SF q) as [sy|sy| |sy my ey]; try discriminate; intros _;
    by rewrite H.
Qed.

End Binary64Facts.

(* ===================================================================== *)
(** ** Properties of the solver, for every arithmetic *)
(* ===================================================================== *)

Section Claims.
Context `{N : Numeric}.

Implicit Types (V Sbus mis : list Cx) (Ybus : list (list (option Cx))).
Implicit Types (Vm F : list Re) (pv pq ref : list nat) (k j : nat).

(** C5: when no reference bus is listed among the PV or the PQ buses, the
    entry of every reference bus in the returned vector is the one of
    [V0], whatever the number of sweeps: no update writes there.  The
    equality is one of values of the arithmetic's own type, so for
    binary64 it is bit for bit. *)
Theorem gausspf_reference_bus_untouched ppoption Ybus Sbus (V0 : list Cx)
    ref pv pq ppopt o :
  (forall r, r ∈ ref -> (r ∉ pv) /\ (r ∉ pq)) ->
  gausspf ppoption Ybus Sbus V0 ref pv pq ppopt = Some o ->
  forall r, r ∈ ref -> out_V o !! r = V0 !! r.
Proof.
  intros Hdisj Hg r Hr.
  apply gausspf_eq in Hg as (mis & F & n & w & s & _ & _ & _ & Hw & HV & _).
  apply gs_while_frame in Hw as (Hframe & _).
  destruct (Hdisj r Hr) as [Hpv Hpq].
  rewrite HV. by apply Hframe.
Qed.

(** C7: with a cap that is not negative, the returned count lies between
    0 and the cap; the returned flag says whether the last norm computed
    was below the tolerance, so a count equal to the cap with that norm
    not below the tolerance comes with the flag cleared; and after at
    least one sweep that norm is the one of the mismatch of the returned
    voltages. *)
Theorem gausspf_iteration_cap ppoption Ybus Sbus (V0 : list Cx) ref pv pq ppopt o :
  (0 <= PF_MAX_IT_GS (default ppoption ppopt))%Z ->
  gausspf ppoption Ybus Sbus V0 ref pv pq ppopt = Some o ->
  (0 <= out_i o <= PF_MAX_IT_GS (default ppoption ppopt))%Z /\
  out_converged o = rltb (out_normF o) (PF_TOL (default ppoption ppopt)) /\
  (out_i o = PF_MAX_IT_GS (default ppoption ppopt) ->
   rltb (out_normF o) (PF_TOL (default ppoption ppopt)) = false ->
   out_converged o = false) /\
  ((0 < out_i o)%Z ->
   exists mis F, mismatch Ybus (out_Sbus o) (out_V o) = Some mis /\
                 F_loop mis pv pq = Some F /\
                 norm_inf F = Some (out_normF o)).
Proof.
  intros Hcap Hg.
  apply gausspf_eq in Hg
    as (mis & F & n & w & s & _ & _ & _ & Hw & HV & Hc & HS & Hn).
  pose proof (gs_while_counter _ _ _ _ _ _ _ _ _ _ Hcap Hw) as Hi.
  assert (st_converged s = rltb (st_normF s) (PF_TOL (default ppoption ppopt)))
    as Hconv by (by eapply (gs_while_converged _ _ _ _ _ _ _ _ _ (_, s));
                   [|exact Hw]).
  simpl in Hi.
  rewrite Hc, HV, HS, Hn.
  split; [done|]. split; [done|]. split; [by intros _ <-|].
  apply (gs_while_invariant _ _ _ _ _ _ _
           (λ i s', (0 < i)%Z ->
              exists mis F, mismatch Ybus (st_Sbus s') (st_V s') = Some mis /\
                            F_loop mis pv pq = Some F /\
                            norm_inf F = Some (st_normF s'))) in Hw as [? _];
    [done| |intros; lia].
  intros i s1 s2 _ _ _ (mis' & F' & _ & Hm & HF & Hn' & _)%gs_iteration_eq _.
  by exists mis', F'.
Qed.


(** C2 (as the code has it): the vector checked before the first sweep is
    the real part of the mismatch at the PV buses, then at the PQ buses,
    then its imaginary part at the PQ buses; when its norm is below the
    tolerance the function returns at once, flag set, count 0, [V0] and
    [Sbus] as given. *)
Theorem gausspf_initial_check ppoption Ybus Sbus (V0 : list Cx) ref pv pq
    ppopt mis a b n :
  mismatch Ybus Sbus V0 = Some mis ->
  take_idx mis pv = Some a ->
  take_idx mis pq = Some b ->
  norm_inf ((real <$> a) ++ (real <$> b) ++ (imag <$> b)) = Some n ->
  rltb n (PF_TOL (default ppoption ppopt)) = true ->
  F_initial mis pv pq = Some ((real <$> a) ++ (real <$> b) ++ (imag <$> b)) /\
  exists w, gausspf ppoption Ybus Sbus V0 ref pv pq ppopt =
            Some (mk_outcome V0 true 0 Sbus n w).
Proof.
  intros Hm Ha Hb Hn Hlt.
  assert (F_initial mis pv pq =
          Some ((real <$> a) ++ (real <$> b) ++ (imag <$> b))) as HF.
  { unfold F_initial, take_idx in *. cbv zeta.
    assert (mapM (λ k, mis !! k) (pv ++ pq) = Some (a ++ b)) as ->.
    { apply mapM_Some. apply mapM_Some in Ha, Hb. by apply Forall2_app. }
    simpl. rewrite Hb. simpl. by rewrite fmap_app, <- (assoc_L (++)). }
  split; [done|].
  destruct (gausspf_no_sweep ppoption Ybus Sbus V0 ref pv pq ppopt mis
              ((real <$> a) ++ (real <$> b) ++ (imag <$> b)) n)
    as [w Hw]; try done.
  - simpl. by rewrite Hlt.
  - exists w. simpl in Hw. by rewrite Hlt in Hw.
Qed.

(** C1 (as the code has it): in every sweep of a call the PQ buses are
    taken in the order of the array [pq].  The bus [k] at any position
    gets [V[k] + (conj(Sbus[k]/V[k]) - sum_j Ybus[k,j]*V[j]) / Ybus[k,k]],
    the sum running over the stored entries of row [k], with [V] the
    vector left by the updates of the earlier positions of the same sweep
    (Gauss-Seidel, not Jacobi): the buses not yet visited hold the values
    they had when the sweep began.  The new value is written at once, the
    later positions go on from the vector so written, and the PV part of
    the sweep follows. *)
Theorem pq_update_gauss_seidel ppoption Ybus Sbus (V0 : list Cx) ref pv l1 k l2
    ppopt o (n : nat) :
  gausspf ppoption Ybus Sbus V0 ref pv (l1 ++ k :: l2) ppopt = Some o ->
  (Z.of_nat n < out_i o)%Z ->
  exists V Sb Vmid sk vk row e Vend st',
    sweeps Ybus (cabs <$> V0) pv (l1 ++ k :: l2) n (V0, Sbus) = Some (V, Sb) /\
    pq_update Ybus Sb l1 V = Some Vmid /\
    (forall j, j ∉ l1 -> Vmid !! j = V !! j) /\
    Sb !! k = Some sk /\ Vmid !! k = Some vk /\
    Ybus !! k = Some row /\ length row = length Vmid /\ row !! k = Some e /\
    pq_update Ybus Sb l2
      (<[k := cadd vk
                (cdiv (csub (conj (cdiv sk vk))
                         (foldl (λ acc p, match p.1 with
                                          | Some y => cadd acc (cmul y p.2)
                                          | None => acc
                                          end) c0 (zip row Vmid)))
                   (default c0 e))]> Vmid) = Some Vend /\
    pv_update Ybus (cabs <$> V0) pv (Vend, Sb) = Some st' /\
    sweeps Ybus (cabs <$> V0) pv (l1 ++ k :: l2) (S n) (V0, Sbus) = Some st' /\
    sweeps Ybus (cabs <$> V0) pv (l1 ++ k :: l2) (Z.to_nat (out_i o)) (V0, Sbus)
      = Some (out_V o, out_Sbus o).
Proof.
  intros Hg Hn.
  destruct (gausspf_sweep _ _ _ _ _ _ _ _ _ n Hg Hn)
    as (V & Sb & V1 & st' & Hs & Hq & Hv & Hs').
  destruct (gausspf_sweeps _ _ _ _ _ _ _ _ _ Hg) as [_ Hall].
  rewrite pq_update_app in Hq.
  destruct (pq_update Ybus Sb l1 V) as [Vmid|] eqn:H1;
    cbn [mbind option_bind pq_update] in Hq; [|done].
  destruct (update_bus Ybus Sb Vmid k) as [V2|] eqn:Hu;
    cbn [mbind option_bind] in Hq; [|done].
  apply update_bus_eq in Hu as (vk & tmp & Hvk & Hc & ->).
  apply gs_correction_eq in Hc
    as (sk & vk' & row & yv & e & Hsk & Hvk' & Hrow & Hd & He & ->).
  assert (vk' = vk) as -> by congruence.
  apply dot_eq in Hd as [Hlen ->].
  exists V, Sb, Vmid, sk, vk, row, e, V1, st'.
  repeat split; try done.
  intros j Hj. by eapply pq_update_other.
Qed.

(** C8: two calls that differ in the verbosity only return the same
    voltages, flag and count (and leave the same [Sbus] and last norm), or
    both raise: the verbosity decides what is written and nothing else. *)
Theorem gausspf_verbosity_independent ppoption Ybus Sbus (V0 : list Cx) ref pv pq
    (tol : Re) (max_it v1 v2 : Z) :
  numbers <$> gausspf ppoption Ybus Sbus V0 ref pv pq (Some (mk_ppopt tol max_it v1)) =
  numbers <$> gausspf ppoption Ybus Sbus V0 ref pv pq (Some (mk_ppopt tol max_it v2)).
Proof.
  unfold gausspf. cbv zeta. simpl.
  destruct (mismatch Ybus Sbus V0) as [mis|]; simpl; [|done].
  destruct (F_initial mis pv pq) as [F|]; simpl; [|done].
  destruct (norm_inf F) as [n|]; simpl; [|done].
  match goal with
  | |- numbers <$> (gs_while _ _ _ _ _ _ _ _ ?a ≫= _) =
       numbers <$> (gs_while _ _ _ _ _ _ _ _ ?b ≫= _) =>
      pose proof (gs_while_erase Ybus (cabs <$> V0) pv pq tol max_it v1 v2 0 a b
                    eq_refl) as He;
      destruct (gs_while Ybus (cabs <$> V0) pv pq tol max_it v1 0 a) as [[i1 s1]|],
               (gs_while Ybus (cabs <$> V0) pv pq tol max_it v2 0 b) as [[i2 s2]|]
  end; simpl in *; try done.
  unfold erase in He. injection He as -> -> -> -> ->. done.
Qed.


End Claims.

(* ===================================================================== *)
(** ** Properties of the solver in binary64 *)
(* ===================================================================== *)

(** These hold whatever the C library's [hypot] computes. *)
Section Binary64Claims.
Variable hypot : float -> float -> float.
#[local] Instance binary64 : Numeric := F64.numeric_with hypot.

(** C3 (as the code has it): in every sweep of a call, after the PQ
    part, the PV part runs when [pv] is not empty; with [pv] empty the
    sweep is the PQ part alone and the call returns [Sbus] as it was
    given, whatever the number of sweeps.  The PV buses are taken in the
    order of the array [pv].  At bus [k], [Sbus[k]] becomes its former
    real part plus [1j] times the imaginary part of
    [V[k] * conj(sum_j Ybus[k,j]*V[j])], the sum running over the stored
    entries of row [k]; the real part of the result is the number it was
    (a zero may change its sign, a NaN stays a NaN) when that imaginary
    part is finite, and a NaN when it is not.  Then [V[k]] gets the update
    of the PQ buses, computed with the new [Sbus[k]]; the later PV buses
    go on from there, and line 104 ends the sweep. *)
Theorem pv_update_reactive_injection ppoption Ybus Sbus (V0 : list Cx) ref pv pq
    ppopt o :
  gausspf ppoption Ybus Sbus V0 ref pv pq ppopt = Some o ->
  sweeps Ybus (cabs <$> V0) pv pq (Z.to_nat (out_i o)) (V0, Sbus)
    = Some (out_V o, out_Sbus o) /\
  (pv = [] -> out_Sbus o = Sbus) /\
  forall n : nat, (Z.of_nat n < out_i o)%Z ->
    exists V Sb V1 st',
      sweeps Ybus (cabs <$> V0) pv pq n (V0, Sbus) = Some (V, Sb) /\
      pq_update Ybus Sb pq V = Some V1 /\
      sweeps Ybus (cabs <$> V0) pv pq (S n) (V0, Sbus) = Some st' /\
      (pv = [] -> st' = (V1, Sb)) /\
      (forall l1 k l2, pv = l1 ++ k :: l2 ->
         exists Vmid Smid vk row sk e V2 S2 V',
           pv_loop Ybus l1 (V1, Sb) = Some (Vmid, Smid) /\
           Vmid !! k = Some vk /\ Ybus !! k = Some row /\
           length row = length Vmid /\ Smid !! k = Some sk /\ row !! k = Some e /\
           let yv := foldl (λ acc p, match p.1 with
                                     | Some y => cadd acc (cmul y p.2)
                                     | None => acc
                                     end) c0 (zip row Vmid) in
           let q := imag (cmul vk (conj yv)) in
           let s := cadd (of_real (real sk)) (cmul cj (of_real q)) in
           (PrimFloat.is_finite q = true -> F64.same (real s) (real sk) = true) /\
           (PrimFloat.is_finite q = false -> PrimFloat.is_nan (real s) = true) /\
           pv_loop Ybus l2
             (<[k := cadd vk (cdiv (csub (conj (cdiv s vk)) yv) (default c0 e))]> Vmid,
              <[k := s]> Smid) = Some (V2, S2) /\
           renormalize (cabs <$> V0) pv V2 = Some V' /\
           st' = (V', S2)).
Proof.
  intros Hg.
  destruct (gausspf_sweeps _ _ _ _ _ _ _ _ _ Hg) as [_ Hall].
  split; [exact Hall|]. split.
  { intros ->. pose proof Hg as Hg'.
    apply gausspf_eq in Hg'
      as (mis & F & nF & w & s & _ & _ & _ & Hw & _ & _ & HS & _).
    apply gs_while_frame in Hw as (_ & Hframe & _ & Hlen). simpl in *.
    rewrite HS. apply list_eq. intros j. apply Hframe, not_elem_of_nil. }
  intros n Hn.
  destruct (gausspf_sweep _ _ _ _ _ _ _ _ _ n Hg Hn)
    as (V & Sb & V1 & st' & Hs & Hq & Hv & Hs').
  exists V, Sb, V1, st'.
  split; [done|]. split; [done|]. split; [done|]. split.
  - intros ->. rewrite pv_update_nil in Hv. congruence.
  - intros l1 k l2 ->. destruct st' as [V' S2].
    apply pv_update_eq in Hv as (V2 & Hl & Hr); [|by destruct l1].
    rewrite pv_loop_app in Hl.
    destruct (pv_loop Ybus l1 (V1, Sb)) as [[Vmid Smid]|];
      cbn [mbind option_bind pv_loop] in Hl; [|done].
    destruct (pv_bus Ybus k (Vmid, Smid)) as [[V3 S3]|] eqn:Hb;
      cbn [mbind option_bind] in Hl; [|done].
    apply pv_bus_eq in Hb as (s & Hsi & -> & Hu).
    apply pv_injection_eq in Hsi
      as (vk & row & yv & sk & Hvk & Hrow & Hd & Hsk & ->).
    apply update_bus_eq in Hu as (vk' & tmp & Hvk' & Hc & ->).
    apply gs_correction_eq in Hc
      as (sk' & vk'' & row' & yv' & e & Hsk' & Hvk'' & Hrow' & Hd' & He & ->).
    assert (vk' = vk) as -> by congruence.
    assert (vk'' = vk) as -> by congruence.
    assert (row' = row) as -> by congruence.
    assert (yv' = yv) as -> by congruence.
    rewrite list_lookup_insert_eq in Hsk' by (by eapply lookup_lt_Some).
    injection Hsk' as <-.
    apply dot_eq in Hd as [Hlen ->].
    exists Vmid, Smid, vk, row, sk, e, V2, S2, V'. cbv zeta.
    split; [done|]. split; [done|]. split; [done|]. split; [done|].
    split; [done|]. split; [done|].
    split; [intros Hfin; by apply (F64_rebuild_finite (real sk))|].
    split; [intros Hfin; by apply (F64_rebuild_not_finite (real sk))|].
    done.
Qed.

(** C9 (as the code has it): a call leaves [Sbus] with its length and
    with the entries it had at every bus that is not a PV bus (the
    reference bus and the PQ buses); at every bus the real part is the
    number it was (a zero may have changed its sign), or has become a
    NaN.  Apart from such a NaN, only the imaginary part at the PV buses
    changes. *)
Theorem gausspf_Sbus_frame ppoption Ybus Sbus (V0 : list Cx) ref pv pq ppopt o :
  gausspf ppoption Ybus Sbus V0 ref pv pq ppopt = Some o ->
  length (out_Sbus o) = length Sbus /\
  (forall j, j ∉ pv -> out_Sbus o !! j = Sbus !! j) /\
  (forall j sj sj', Sbus !! j = Some sj -> out_Sbus o !! j = Some sj' ->
     F64.kept_or_nan (real sj) (real sj') = true).
Proof.
  intros Hg.
  destruct (gausspf_sweeps _ _ _ _ _ _ _ _ _ Hg) as [_ Hall].
  apply gausspf_eq in Hg as (mis & F & n & w & s & _ & _ & _ & Hw & _ & _ & HS & _).
  rewrite HS. split; [|split].
  - by apply gs_while_frame in Hw as (_ & _ & _ & ?).
  - by apply gs_while_frame in Hw as (_ & ? & _).
  - rewrite <- HS. intros j sj sj' H0 H1.
    refine (sweeps_real (λ r r', F64.kept_or_nan r r' = true) _ Sbus
              Ybus (cabs <$> V0) pv pq _ V0 Sbus _ _ _ Hall j sj sj' H0 H1).
    + intros r r' q. apply F64_kept_step.
    + intros j' s0 s1 E0 E1.
      pose proof (eq_trans (eq_sym E0) E1) as E. injection E as ->.
      apply F64_kept_refl.
Qed.

End Binary64Claims.

(* ===================================================================== *)
(** ** The magnitude of the PV voltages *)
(* ===================================================================== *)

Section MagnitudeClaim.
Local Open Scope R_scope.


End MagnitudeClaim.

(* ===================================================================== *)
(** ** The two-bus network in exact arithmetic *)
(* ===================================================================== *)

Section Net2Runs.
#[local] Existing Instance RC.numeric.
Import Net2.
Local Open Scope R_scope.

Lemma sqrt_sq_plus0 (x : R) : 0 <= x -> R_sqrt.sqrt (x * x + 0 * 0) = x.
Proof.
  intros Hx. replace (x * x + 0 * 0) with (x * x) by lra. by apply sqrt_square.
Qed.

(** Unfold the solver's definitions down to real arithmetic, then decide
    the equations between real numbers. *)
Ltac rc_compute :=
  cbv -[IZR Rplus Rminus Rmult Rdiv Ropp Rinv R_sqrt.sqrt Rabs Rmax Rlt_dec].
Ltac rc_eq := rc_compute; repeat f_equal; first [lra | field; lra].

Lemma net2_update : update_bus Ybus Sbus_after V0 1%nat = Some [c 1; c 2].
Proof. rc_eq. Qed.

Lemma net2_renormalize :
  renormalize (cabs <$> V0) [1%nat] [c 1; c 2] = Some [c 1; c 1].
Proof.
  rc_compute. rewrite !sqrt_sq_plus0 by lra.
  repeat f_equal; first [lra | field; lra].
Qed.

End Net2Runs.

(* ===================================================================== *)
(** ** The statements at work on the three-bus network *)
(* ===================================================================== *)

Section Net3Runs.
#[local] Existing Instance F64.numeric.
Import Net3.

Lemma first_sweep (z : Z) : z = 1%Z -> (Z.of_nat 0 < z)%Z.
Proof. by intros ->. Qed.

(** An entry that the matrix does not store takes no part in a row sum:
    an infinite voltage in its column leaves the sum finite, where a
    stored zero gives a NaN. *)
Example dot_skips_unstored :
  dot [Some (c 1 0); None] [c 1 0; c infinity 0] = Some (c 1 0) /\
  exists yv, dot [Some (c 1 0); Some (c 0 0)] [c 1 0; c infinity 0] = Some yv /\
             PrimFloat.is_nan (real yv) = true.
Proof. split; [|eexists]; vm_compute; repeat split. Qed.

(** Line 68 checks no shape.  With a [V0] of one entry, three injections
    and a matrix of three rows and one column the mismatch has three
    entries, and a call with the load at bus 2 returns at once. *)
Example gausspf_stretches_short_V0 :
  exists n w,
    gausspf (ppopt 0.125 1 0) [[Some (c 1 0)]; [Some (c 1 0)]; [Some (c 1 0)]]
      [c 1 0; c 1 0; c 1 0] [c 1 0] [0] [] [2] None
    = Some (mk_outcome [c 1 0] true 0 [c 1 0; c 1 0; c 1 0] n w).
Proof. do 2 eexists. vm_compute. reflexivity. Qed.

(** The first sweep of a call with the loads [1] and [2], at the second
    of them. *)
Lemma pq_update_gauss_seidel_witness :
  exists o,
    gausspf (ppopt 0.0009765625%float 1 0) Ybus Sbus V0 [0] [] ([1] ++ 2 :: [])
      None = Some o /\
    out_i o = 1%Z /\
    exists V Sb Vmid sk vk row e Vend st',
      sweeps Ybus (cabs <$> V0) [] ([1] ++ 2 :: []) 0 (V0, Sbus) = Some (V, Sb) /\
      pq_update Ybus Sb [1] V = Some Vmid /\
      (forall j, j ∉ [1] -> Vmid !! j = V !! j) /\
      Sb !! 2 = Some sk /\ Vmid !! 2 = Some vk /\
      Ybus !! 2 = Some row /\ length row = length Vmid /\ row !! 2 = Some e /\
      pq_update Ybus Sb []
        (<[2 := cadd vk
                  (cdiv (csub (conj (cdiv sk vk))
                           (foldl (λ acc p, match p.1 with
                                            | Some y => cadd acc (cmul y p.2)
                                            | None => acc
                                            end) c0 (zip row Vmid)))
                     (default c0 e))]> Vmid) = Some Vend /\
      pv_update Ybus (cabs <$> V0) [] (Vend, Sb) = Some st' /\
      sweeps Ybus (cabs <$> V0) [] ([1] ++ 2 :: []) 1 (V0, Sbus) = Some st' /\
      sweeps Ybus (cabs <$> V0) [] ([1] ++ 2 :: []) (Z.to_nat (out_i o)) (V0, Sbus)
        = Some (out_V o, out_Sbus o).
Proof.
  assert (exists o,
            gausspf (ppopt 0.0009765625%float 1 0) Ybus Sbus V0 [0] []
              ([1] ++ 2 :: []) None = Some o /\ out_i o = 1%Z)
    as (o & Hg & Hi).
  { eexists. split; [vm_compute; reflexivity|reflexivity]. }
  exists o. split; [exact Hg|]. split; [exact Hi|].
  apply (pq_update_gauss_seidel (ppopt 0.0009765625%float 1 0) Ybus Sbus V0
           [0] [] [1] 2 [] None o 0 Hg (first_sweep _ Hi)).
Defined.

(** With the loads given as [2; 1] the sweep updates bus 2 first, from
    the first guess: its new voltage is the one [update_bus] gives on
    [V0], and not the one it gets when bus 1 is updated before it. *)
Lemma pq_update_gauss_seidel_counterexample :
  exists o o' V1 v v',
    gausspf (ppopt 0.0009765625%float 1 0) Ybus Sbus V0 [0] [] [2; 1] None
      = Some o /\
    out_i o = 1%Z /\
    update_bus Ybus Sbus V0 2 = Some V1 /\
    V1 !! 2 = Some v /\ out_V o !! 2 = Some v /\
    gausspf (ppopt 0.0009765625%float 1 0) Ybus Sbus V0 [0] [] [1; 2] None
      = Some o' /\
    out_V o' !! 2 = Some v' /\
    (real v <? real v')%float = true.
Proof. do 5 eexists. vm_compute. repeat split. Qed.

(** A Jacobi pass, which reads no update of the same pass, ends
    elsewhere. *)
Example pq_update_differs_from_jacobi :
  pq_update Ybus Sbus [1; 2] V0 <> jacobi_update Ybus Sbus [1; 2] V0.
Proof.
  intros H.
  apply (f_equal (λ r, match r with
                       | Some [_; _; (re, _)] => PrimFloat.ltb re 0.90625
                       | _ => false
                       end)) in H.
  vm_compute in H. discriminate H.
Qed.

Lemma gausspf_initial_check_witness :
  exists mis a b n w,
    mismatch Ybus Sbus V0 = Some mis /\
    take_idx mis [1] = Some a /\
    take_idx mis [2] = Some b /\
    norm_inf ((real <$> a) ++ (real <$> b) ++ (imag <$> b)) = Some n /\
    rltb n 1%float = true /\
    F_initial mis [1] [2] = Some ((real <$> a) ++ (real <$> b) ++ (imag <$> b)) /\
    gausspf (ppopt 1%float 5 2) Ybus Sbus V0 [0] [1] [2] None =
      Some (mk_outcome V0 true 0 Sbus n w).
Proof.
  assert (exists mis a b n,
            mismatch Ybus Sbus V0 = Some mis /\ take_idx mis [1] = Some a /\
            take_idx mis [2] = Some b /\
            norm_inf ((real <$> a) ++ (real <$> b) ++ (imag <$> b)) = Some n /\
            rltb n 1%float = true) as (mis & a & b & n & Hm & Ha & Hb & Hn & Hlt).
  { do 4 eexists. repeat split; vm_compute; reflexivity. }
  destruct (gausspf_initial_check (ppopt 1%float 5 2) Ybus Sbus V0 [0] [1] [2] None
              mis a b n Hm Ha Hb Hn Hlt) as (HF & w & Hg).
  exists mis, a, b, n, w. repeat split; assumption.
Defined.

(** At [Sgen] the specification's vector (reference and load buses) has
    norm 0, below the tolerance, while the vector the function checks
    (generator and load buses) has norm 0.5: the function makes a sweep
    and returns a count of 1. *)
Lemma gausspf_initial_check_counterexample :
  (mismatch Ybus Sgen V0 ≫= λ mis, F_initial_spec mis [0] [2] ≫= norm_inf)
    = Some 0%float /\
  rltb (0%float : Re) (0.125%float : Re) = true /\
  (mismatch Ybus Sgen V0 ≫= λ mis, F_initial mis [1] [2] ≫= norm_inf)
    = Some 0.5%float /\
  (λ o, (out_converged o, out_i o))
    <$> gausspf (ppopt 0.125%float 1 0) Ybus Sgen V0 [0] [1] [2] None
    = Some (false, 1%Z).
Proof. vm_compute. repeat split. Qed.

Lemma gausspf_reference_bus_untouched_witness :
  exists o,
    gausspf (ppopt 0.125%float 5 0) Ybus Sbus V0 [0] [1] [2] None = Some o /\
    out_i o = 1%Z /\
    out_V o !! 0 = V0 !! 0.
Proof.
  eexists. split; [vm_compute; reflexivity|]. split; [reflexivity|].
  apply (gausspf_reference_bus_untouched (ppopt 0.125%float 5 0) Ybus Sbus V0
           [0] [1] [2] None).
  - intros r ->%list_elem_of_singleton.
    split; intros ?%list_elem_of_singleton; discriminate.
  - vm_compute. reflexivity.
  - apply list_elem_of_singleton. reflexivity.
Defined.

Lemma gausspf_iteration_cap_witness :
  exists o,
    gausspf (ppopt 0.0009765625%float 2 0) Ybus Sbus V0 [0] [1] [2] None = Some o /\
    out_i o = 2%Z /\ out_converged o = false /\
    (0 <= out_i o <= 2)%Z /\
    out_converged o = rltb (out_normF o) 0.0009765625%float /\
    exists mis F, mismatch Ybus (out_Sbus o) (out_V o) = Some mis /\
                  F_loop mis [1] [2] = Some F /\
                  norm_inf F = Some (out_normF o).
Proof.
  assert (exists o,
            gausspf (ppopt 0.0009765625%float 2 0) Ybus Sbus V0 [0] [1] [2] None
              = Some o /\ out_i o = 2%Z /\ out_converged o = false)
    as (o & Hg & Hi2 & Hc2).
  { eexists. split; [vm_compute; reflexivity|]. split; reflexivity. }
  destruct (gausspf_iteration_cap (ppopt 0.0009765625%float 2 0) Ybus Sbus V0
              [0] [1] [2] None o ltac:(vm_compute; discriminate) Hg)
    as (Hi & Hc & _ & Hn).
  exists o. repeat split; try assumption; try apply Hi.
  apply Hn. rewrite Hi2. reflexivity.
Defined.



(** The first sweep of a call with the generator [1] and the load [2]. *)
Lemma pv_update_reactive_injection_witness :
  exists o,
    gausspf (ppopt 0.0009765625%float 1 0) Ybus Sbus V0 [0] [1] [2] None
      = Some o /\
    out_i o = 1%Z /\
    sweeps Ybus (cabs <$> V0) [1] [2] (Z.to_nat (out_i o)) (V0, Sbus)
      = Some (out_V o, out_Sbus o) /\
    exists V Sb V1 st',
      sweeps Ybus (cabs <$> V0) [1] [2] 0 (V0, Sbus) = Some (V, Sb) /\
      pq_update Ybus Sb [2] V = Some V1 /\
      sweeps Ybus (cabs <$> V0) [1] [2] 1 (V0, Sbus) = Some st' /\
      exists Vmid Smid vk row sk e V2 S2 V',
        pv_loop Ybus [] (V1, Sb) = Some (Vmid, Smid) /\
        Vmid !! 1 = Some vk /\ Ybus !! 1 = Some row /\
        length row = length Vmid /\ Smid !! 1 = Some sk /\ row !! 1 = Some e /\
        let yv := foldl (λ acc p, match p.1 with
                                  | Some y => cadd acc (cmul y p.2)
                                  | None => acc
                                  end) c0 (zip row Vmid) in
        let q := imag (cmul vk (conj yv)) in
        let s := cadd (of_real (real sk)) (cmul cj (of_real q)) in
        (PrimFloat.is_finite q = true -> F64.same (real s) (real sk) = true) /\
        pv_loop Ybus []
          (<[1 := cadd vk (cdiv (csub (conj (cdiv s vk)) yv) (default c0 e))]> Vmid,
           <[1 := s]> Smid) = Some (V2, S2) /\
        renormalize (cabs <$> V0) [1] V2 = Some V' /\
        st' = (V', S2).
Proof.
  assert (exists o,
            gausspf (ppopt 0.0009765625%float 1 0) Ybus Sbus V0 [0] [1] [2] None
              = Some o /\ out_i o = 1%Z)
    as (o & Hg & Hi).
  { eexists. split; [vm_compute; reflexivity|reflexivity]. }
  exists o. split; [exact Hg|]. split; [exact Hi|].
  destruct (pv_update_reactive_injection F64.hypot_sqrt
              (ppopt 0.0009765625%float 1 0) Ybus Sbus V0 [0] [1] [2] None o Hg)
    as (Hall & _ & Hsweep).
  split; [exact Hall|].
  destruct (Hsweep 0 (first_sweep _ Hi))
    as (V & Sb & V1 & st' & Hs & Hq & Hs' & _ & Hpv).
  exists V, Sb, V1, st'. split; [exact Hs|]. split; [exact Hq|].
  split; [exact Hs'|].
  destruct (Hpv [] 1 [] eq_refl)
    as (Vmid & Smid & vk & row & sk & e & V2 & S2 & V' & H1 & H2 & H3 & H4 & H5
        & H6 & H).
  exists Vmid, Smid, vk, row, sk, e, V2, S2, V'.
  cbv zeta in H |- *. destruct H as (H7 & _ & H8 & H9 & H10).
  repeat split; assumption.
Defined.

(** Two deviations.  With the generators given as [2; 1] the sweep takes
    bus 2 first: the call does not return what it returns for [1; 2], and
    the loop over [2; 1] leaves at bus 2 what one step at bus 2 makes of
    the first guess.  And from a first guess with no voltage at the load
    the sweep computes a reactive injection that is not finite, and the
    real part of [Sbus[1]], 0.5 before the call, is a NaN after it. *)
Lemma pv_update_reactive_injection_counterexample :
  (exists o o' v v' st1 st2 w,
     gausspf (ppopt 0.0009765625%float 1 0) Ybus Sbus V0 [0] [2; 1] [] None
       = Some o /\
     gausspf (ppopt 0.0009765625%float 1 0) Ybus Sbus V0 [0] [1; 2] [] None
       = Some o' /\
     out_V o !! 2 = Some v /\ out_V o' !! 2 = Some v' /\
     (real v <? real v')%float = true /\
     pv_bus Ybus 2 (V0, Sbus) = Some st1 /\
     pv_loop Ybus [2; 1] (V0, Sbus) = Some st2 /\
     st1.1 !! 2 = Some w /\ st2.1 !! 2 = Some w) /\
  (exists o s,
     gausspf (ppopt 0.0009765625%float 1 0) Ybus Sbus V0dead [0] [1] [2] None
       = Some o /\
     out_i o = 1%Z /\
     Sbus !! 1 = Some (c 0.5 0) /\
     out_Sbus o !! 1 = Some s /\
     PrimFloat.is_nan (real s) = true).
Proof.
  split.
  - do 7 eexists. vm_compute. repeat split.
  - do 2 eexists. vm_compute. repeat split.
Qed.



Lemma gausspf_Sbus_frame_witness :
  exists o,
    gausspf (ppopt 0.0009765625%float 2 0) Ybus Sbus V0 [0] [1] [2] None
      = Some o /\
    out_i o = 2%Z /\
    length (out_Sbus o) = length Sbus /\
    (forall j, j ∉ [1] -> out_Sbus o !! j = Sbus !! j) /\
    (forall j sj sj', Sbus !! j = Some sj -> out_Sbus o !! j = Some sj' ->
       F64.kept_or_nan (real sj) (real sj') = true).
Proof.
  assert (exists o,
            gausspf (ppopt 0.0009765625%float 2 0) Ybus Sbus V0 [0] [1] [2] None
              = Some o /\ out_i o = 2%Z)
    as (o & Hg & Hi).
  { eexists. split; [vm_compute; reflexivity|reflexivity]. }
  exists o. split; [exact Hg|]. split; [exact Hi|].
  apply (gausspf_Sbus_frame F64.hypot_sqrt (ppopt 0.0009765625%float 2 0)
           Ybus Sbus V0 [0] [1] [2] None o Hg).
Defined.

(** From a first guess with no voltage at the load, one sweep turns the
    real part of [Sbus[1]], 0.5 before the call, into a NaN. *)
Lemma gausspf_Sbus_frame_counterexample :
  exists o s,
    gausspf (ppopt 0.0009765625%float 1 0) Ybus Sbus V0dead [0] [1] [2] None
      = Some o /\
    out_i o = 1%Z /\
    Sbus !! 1 = Some (c 0.5 0) /\
    out_Sbus o !! 1 = Some s /\
    PrimFloat.is_nan (real s) = true /\
    (real s =? 0.5)%float = false.
Proof. do 2 eexists. vm_compute. repeat split. Qed.

End Net3Runs.

(* ===================================================================== *)
(** ** Further properties of the solver, for every arithmetic *)
(* ===================================================================== *)

Section MoreProperties.
Context `{N : Numeric}.

Implicit Types (V Sbus mis : list Cx) (Ybus : list (list (option Cx))).
Implicit Types (Vm F : list Re) (pv pq ref : list nat) (k j : nat).

Lemma take_idx_app {A} (a : list A) (l1 l2 : list nat) :
  take_idx a (l1 ++ l2) =
  x ← take_idx a l1; y ← take_idx a l2; Some (x ++ y).
Proof.
  unfold take_idx. induction l1 as [|k ks IH]; simpl.
  - by destruct (mapM (λ k, a !! k) l2).
  - destruct (a !! k) as [x|]; simpl; [|done].
    rewrite IH.
    destruct (mapM (λ k, a !! k) ks) as [xs|]; simpl; [|done].
    by destruct (mapM (λ k, a !! k) l2).
Qed.

(** The vector of lines 108-110 is assembled like the one of lines
    69-70. *)
Lemma F_loop_F_initial mis pv pq : F_loop mis pv pq = F_initial mis pv pq.
Proof.
  unfold F_initial, F_loop. cbv zeta. rewrite take_idx_app.
  destruct (take_idx mis pv) as [a|]; cbn [mbind option_bind]; [|done].
  destruct (take_idx mis pq) as [b|]; cbn [mbind option_bind]; [|done].
  by rewrite fmap_app, <- (assoc_L (++)).
Qed.

(** X1: the vector checked before the first sweep (lines 69-70) and the one
    checked after every sweep (lines 108-110) are the same function of
    the mismatch: both take its real part at the PV then the PQ buses and
    its imaginary part at the PQ buses, and both raise on the same
    inputs. *)
Theorem F_initial_is_F_loop mis pv pq :
  F_initial mis pv pq = F_loop mis pv pq.
Proof.
  unfold F_initial, F_loop. cbv zeta. rewrite take_idx_app.
  destruct (take_idx mis pv) as [a|]; simpl; [|done].
  destruct (take_idx mis pq) as [b|]; simpl; [|done].
  by rewrite fmap_app, <- (assoc_L (++)).
Qed.

Lemma broadcast_length {A B C} (f : A -> B -> C) (a : list A) (b : list B) c :
  broadcast f a b = Some c -> length c = length a \/ length c = length b.
Proof.
  unfold broadcast. destruct (decide (length a = length b)) as [Hl|Hl].
  { intros [= <-]. left. rewrite length_zip_with. lia. }
  destruct a as [|x [|x' a]]; destruct b as [|y [|y' b]]; intros H;
    simplify_eq; rewrite ?length_fmap; auto.
Qed.

Lemma broadcast_same_length {A B C} (f : A -> B -> C) (a : list A) (b : list B) :
  length a = length b -> broadcast f a b = Some (zip_with f a b).
Proof. intros Hl. unfold broadcast. by rewrite decide_True. Qed.

Lemma matvec_length Ybus V YV : matvec Ybus V = Some YV -> length YV = length Ybus.
Proof.
  unfold matvec. intros H. apply mapM_Some in H.
  symmetry. by eapply Forall2_length.
Qed.

(** The mismatch is no longer than the longest of its operands. *)
Lemma mismatch_length Ybus Sbus V mis :
  mismatch Ybus Sbus V = Some mis ->
  length mis <= length V `max` (length Ybus `max` length Sbus).
Proof.
  unfold mismatch. intros H.
  destruct (matvec Ybus V) as [YV|] eqn:HYV; cbn [mbind option_bind] in H; [|done].
  destruct (broadcast cmul V (conj <$> YV)) as [p|] eqn:Hp;
    cbn [mbind option_bind] in H; [|done].
  apply matvec_length in HYV.
  apply broadcast_length in Hp, H. rewrite length_fmap in Hp. lia.
Qed.

(** X2: a bus index of [pv] or [pq] that is below none of the length of
    [V0], the length of [Sbus] and the number of rows of [Ybus] makes the
    call raise (the IndexError of line 69, or an earlier error), before
    any sweep.  An index beyond [V0] alone does not: NumPy stretches a
    vector of one entry to the length of the others. *)
Theorem gausspf_index_out_of_range ppoption Ybus Sbus (V0 : list Cx) ref pv pq
    ppopt k :
  k ∈ pv ++ pq ->
  length V0 <= k -> length Sbus <= k -> length Ybus <= k ->
  gausspf ppoption Ybus Sbus V0 ref pv pq ppopt = None.
Proof.
  intros Hk HlV HlS HlY. unfold gausspf. cbv zeta.
  destruct (mismatch Ybus Sbus V0) as [mis|] eqn:Hm; simpl; [|done].
  assert (take_idx mis (pv ++ pq) = None) as Ht.
  { apply mapM_None, Exists_exists. exists k. split; [done|].
    apply lookup_ge_None. pose proof (mismatch_length _ _ _ _ Hm). lia. }
  unfold F_initial. cbv zeta. by rewrite Ht.
Qed.

(** Whatever the loop did, the norm it holds is the norm of the mismatch
    of the voltages and injections it holds. *)
Lemma gausspf_final_norm ppoption Ybus Sbus (V0 : list Cx) ref pv pq ppopt o :
  gausspf ppoption Ybus Sbus V0 ref pv pq ppopt = Some o ->
  out_converged o = rltb (out_normF o) (PF_TOL (default ppoption ppopt)) /\
  exists mis F, mismatch Ybus (out_Sbus o) (out_V o) = Some mis /\
                F_loop mis pv pq = Some F /\
                norm_inf F = Some (out_normF o).
Proof.
  intros Hg.
  apply gausspf_eq in Hg
    as (mis & F & n & w & s & Hm & HF & Hn & Hw & HV & Hc & HS & HnF).
  rewrite Hc, HV, HS, HnF. split.
  - by eapply (gs_while_converged _ _ _ _ _ _ _ _ _ (_, s)); [|exact Hw].
  - apply (gs_while_invariant _ _ _ _ _ _ _
             (λ _ s', exists mis F,
                mismatch Ybus (st_Sbus s') (st_V s') = Some mis /\
                F_loop mis pv pq = Some F /\
                norm_inf F = Some (st_normF s'))) in Hw as [? _]; [done| |].
    + intros i s1 s2 _ _ _ (mis' & F' & _ & Hm' & HF' & Hn' & _)%gs_iteration_eq.
      by exists mis', F'.
    + exists mis, F. simpl. by rewrite F_loop_F_initial.
Qed.

(** X3: a converged result is accepted as it is: called again on the returned
    voltages and the [Sbus] the first call left, with the same options,
    the function returns at once, flag set, count 0, the same voltages
    and the same [Sbus]. *)
Theorem gausspf_restart_converged ppoption Ybus Sbus (V0 : list Cx) ref pv pq
    ppopt o :
  gausspf ppoption Ybus Sbus V0 ref pv pq ppopt = Some o ->
  out_converged o = true ->
  exists w, gausspf ppoption Ybus (out_Sbus o) (out_V o) ref pv pq ppopt =
            Some (mk_outcome (out_V o) true 0 (out_Sbus o) (out_normF o) w).
Proof.
  intros Hg Hc.
  destruct (gausspf_final_norm _ _ _ _ _ _ _ _ _ Hg)
    as (Hconv & mis & F & Hm & HF & Hn).
  rewrite Hc in Hconv. symmetry in Hconv.
  rewrite F_loop_F_initial in HF.
  destruct (gausspf_no_sweep ppoption Ybus (out_Sbus o) (out_V o) ref pv pq
              ppopt mis F (out_normF o)) as [w Hw]; try done.
  - simpl. by rewrite Hconv.
  - exists w. simpl in Hw. by rewrite Hconv in Hw.
Qed.

(** X4: a call that returns without convergence has used up its cap: the
    count is [max_it], or 0 when [max_it] is negative. *)
Theorem gausspf_not_converged_count ppoption Ybus Sbus (V0 : list Cx) ref pv pq
    ppopt o :
  gausspf ppoption Ybus Sbus V0 ref pv pq ppopt = Some o ->
  out_converged o = false ->
  out_i o = Z.max 0 (PF_MAX_IT_GS (default ppoption ppopt)).
Proof.
  intros Hg Hc.
  apply gausspf_eq in Hg as (mis & F & n & w & s & _ & _ & _ & Hw & _ & Hcs & _).
  rewrite Hcs in Hc.
  apply (gs_while_invariant _ _ _ _ _ _ _
           (λ (i : Z) _,
              (0 <= i <= Z.max 0 (PF_MAX_IT_GS (default ppoption ppopt)))%Z))
    in Hw as [Hi [Hex|Hex]]; simpl in *.
  - congruence.
  - lia.
  - intros. lia.
  - lia.
Qed.

(** X5: with a verbosity of 1 or less nothing is written per iteration: the
    output is the banner when the verbosity is positive, followed, when
    the verbosity is not 0, by the summary; so a verbosity of 0 writes
    nothing, and a negative one (true for [if verbose:], false for
    [verbose > 0]) writes the summary without the banner. *)
Theorem gausspf_output_quiet ppoption Ybus Sbus (V0 : list Cx) ref pv pq ppopt o :
  (VERBOSE (default ppoption ppopt) <= 1)%Z ->
  gausspf ppoption Ybus Sbus V0 ref pv pq ppopt = Some o ->
  out_written o =
    (if (0 <? VERBOSE (default ppoption ppopt))%Z then [OutBanner] else []) ++
    (if (VERBOSE (default ppoption ppopt) =? 0)%Z then []
     else summary (out_converged o) (out_i o)).
Proof.
  intros Hv Hg. unfold gausspf in Hg. cbv zeta in Hg.
  set (opt := default ppoption ppopt) in *.
  destruct (mismatch Ybus Sbus V0) as [mis|]; simpl in Hg; [|done].
  destruct (F_initial mis pv pq) as [F|]; simpl in Hg; [|done].
  destruct (norm_inf F) as [n|]; simpl in Hg; [|done].
  assert ((1 <? VERBOSE opt)%Z = false) as H1 by (apply Z.ltb_ge; lia).
  rewrite H1, andb_false_r in Hg.
  set (banner := if (0 <? VERBOSE opt)%Z then [OutBanner] else []) in *.
  match type of Hg with
  | gs_while _ _ _ _ _ _ _ _ ?s0 ≫= _ = _ =>
      destruct (gs_while Ybus (cabs <$> V0) pv pq (PF_TOL opt)
                  (PF_MAX_IT_GS opt) (VERBOSE opt) 0 s0) as [[i s]|] eqn:Hw;
      simpl in Hg; [|done]
  end.
  apply (gs_while_invariant _ _ _ _ _ _ _
           (λ (c : Z) s',
              (0 <= c)%Z /\
              st_written s' =
                banner ++ (if negb (VERBOSE opt =? 0)%Z && st_converged s'
                              && (0 <? c)%Z
                           then [OutConverged c] else [])))
    in Hw as [[Hi Hwr] _]; simpl in *.
  - simplify_eq. simpl. rewrite Hwr. unfold summary.
    destruct (VERBOSE opt =? 0)%Z; simpl; [done|].
    destruct (st_converged s); simpl.
    + destruct (Z.eqb_spec i 0) as [->|Hne]; [done|].
      by replace (0 <? i)%Z with true by (symmetry; apply Z.ltb_lt; lia).
    + by rewrite app_nil_r.
  - intros c s1 s2 Hc _ [Hc0 Hwr1] Hit.
    split; [lia|].
    unfold gs_iteration in Hit.
    destruct (gs_sweep Ybus (cabs <$> V0) pv pq (st_V s1, st_Sbus s1)) as [st|];
      simpl in Hit; [|done].
    destruct (mismatch Ybus st.2 st.1) as [mis'|]; simpl in Hit; [|done].
    destruct (F_loop mis' pv pq) as [F'|]; simpl in Hit; [|done].
    destruct (norm_inf F') as [n'|]; simpl in Hit; [|done].
    rewrite H1, Hwr1, Hc, andb_false_r in Hit. simpl in Hit.
    rewrite app_nil_r in Hit.
    replace (0 <? c + 1)%Z with true by (symmetry; apply Z.ltb_lt; lia).
    destruct (rltb n' (PF_TOL opt)); simplify_eq; simpl.
    + destruct (VERBOSE opt =? 0)%Z; simpl; [by rewrite app_nil_r|done].
    + rewrite andb_false_r. simpl. by rewrite app_nil_r.
  - split; [lia|]. by rewrite andb_false_r, app_nil_r.
Qed.

Lemma iter_lines_app (w1 w2 : list out_event) :
  iter_lines (w1 ++ w2) = iter_lines w1 ++ iter_lines w2.
Proof. apply omap_app. Qed.

Lemma seqZ_snoc_next (c : Z) :
  (0 <= c)%Z -> seqZ 0 (c + 1 + 1) = seqZ 0 (c + 1) ++ [(c + 1)%Z].
Proof.
  intros Hc. rewrite (seqZ_app 0 (c + 1) 1) by lia. f_equal.
Qed.

(** X6: with a verbosity above 1 the trace has one line per evaluation of the
    mismatch, numbered 0 (the check before the first sweep), 1, ..., up
    to the returned count, in this order. *)
Theorem gausspf_output_trace ppoption Ybus Sbus (V0 : list Cx) ref pv pq ppopt o :
  (1 < VERBOSE (default ppoption ppopt))%Z ->
  gausspf ppoption Ybus Sbus V0 ref pv pq ppopt = Some o ->
  iter_lines (out_written o) = seqZ 0 (out_i o + 1).
Proof.
  intros Hv Hg. unfold gausspf in Hg. cbv zeta in Hg.
  set (opt := default ppoption ppopt) in *.
  destruct (mismatch Ybus Sbus V0) as [mis|]; simpl in Hg; [|done].
  destruct (F_initial mis pv pq) as [F|]; simpl in Hg; [|done].
  destruct (norm_inf F) as [n|]; simpl in Hg; [|done].
  assert ((1 <? VERBOSE opt)%Z = true) as H1 by (apply Z.ltb_lt; lia).
  assert ((0 <? VERBOSE opt)%Z = true) as H0 by (apply Z.ltb_lt; lia).
  rewrite H1, H0, andb_true_r in Hg.
  match type of Hg with
  | gs_while _ _ _ _ _ _ _ _ ?s0 ≫= _ = _ =>
      destruct (gs_while Ybus (cabs <$> V0) pv pq (PF_TOL opt)
                  (PF_MAX_IT_GS opt) (VERBOSE opt) 0 s0) as [[i s]|] eqn:Hw;
      simpl in Hg; [|done]
  end.
  apply (gs_while_invariant _ _ _ _ _ _ _
           (λ (c : Z) s',
              (0 <= c)%Z /\ iter_lines (st_written s') = seqZ 0 (c + 1)))
    in Hw as [[Hi Hwr] _]; simpl in *.
  - simplify_eq. simpl.
    destruct (negb (VERBOSE opt =? 0)%Z && negb (st_converged s)); [|done].
    by rewrite iter_lines_app, Hwr, app_nil_r.
  - intros c s1 s2 _ _ [Hc0 Hwr1] Hit.
    split; [lia|].
    unfold gs_iteration in Hit.
    destruct (gs_sweep Ybus (cabs <$> V0) pv pq (st_V s1, st_Sbus s1)) as [st|];
      simpl in Hit; [|done].
    destruct (mismatch Ybus st.2 st.1) as [mis'|]; simpl in Hit; [|done].
    destruct (F_loop mis' pv pq) as [F'|]; simpl in Hit; [|done].
    destruct (norm_inf F') as [n'|]; simpl in Hit; [|done].
    rewrite H1 in Hit. rewrite seqZ_snoc_next by done.
    destruct (rltb n' (PF_TOL opt)); simplify_eq; simpl.
    + destruct (VERBOSE opt =? 0)%Z;
        rewrite ?iter_lines_app, Hwr1; simpl; by rewrite ?app_nil_r.
    + by rewrite iter_lines_app, Hwr1.
  - split; [lia|]. by destruct (rltb n (PF_TOL opt)).
Qed.

(** The mismatch of arrays with one entry per bus. *)
Lemma mismatch_eq Ybus Sbus V :
  length Ybus = length V -> length Sbus = length V ->
  mismatch Ybus Sbus V =
  YV ← matvec Ybus V; Some (zip_with csub (zip_with cmul V (conj <$> YV)) Sbus).
Proof.
  intros HlY HlS. unfold mismatch.
  destruct (matvec Ybus V) as [YV|] eqn:HYV; cbn [mbind option_bind]; [|done].
  apply matvec_length in HYV.
  rewrite broadcast_same_length by (rewrite length_fmap; lia).
  cbn [mbind option_bind].
  apply broadcast_same_length. rewrite length_zip_with, length_fmap. lia.
Qed.

(** An entry of that mismatch, from its parts. *)
Lemma mismatch_lookup Ybus Sbus V mis k (m : Cx) :
  length Ybus = length V -> length Sbus = length V ->
  mismatch Ybus Sbus V = Some mis -> mis !! k = Some m ->
  exists vk row yv sk,
    V !! k = Some vk /\ Ybus !! k = Some row /\ dot row V = Some yv /\
    Sbus !! k = Some sk /\ m = csub (cmul vk (conj yv)) sk.
Proof.
  intros HlY HlS H Hk. rewrite mismatch_eq in H by done. unfold matvec in H.
  destruct (mapM (λ row, dot row V) Ybus) as [YV|] eqn:HYV; simpl in H; [|done].
  simplify_eq. rewrite !lookup_zip_with in Hk.
  destruct (V !! k) as [vk|]; simpl in Hk; [|done].
  rewrite list_lookup_fmap in Hk.
  destruct (YV !! k) as [yv|] eqn:Hyv; simpl in Hk; [|done].
  destruct (Sbus !! k) as [sk|]; simpl in Hk; [|done].
  apply mapM_Some in HYV.
  destruct (Forall2_lookup_r _ _ _ _ _ HYV Hyv) as (row & Hrow & Hd).
  exists vk, row, yv, sk. simplify_eq. repeat split; done.
Qed.

Lemma dot_length (row : list (option Cx)) V (yv : Cx) :
  dot row V = Some yv -> length row = length V.
Proof. unfold dot. by destruct (decide (length row = length V)). Qed.

Lemma dot_same_length (row : list (option Cx)) V :
  length row = length V ->
  dot row V = Some (foldl (λ acc p, match p.1 with
                                    | Some y => cadd acc (cmul y p.2)
                                    | None => acc
                                    end) c0 (zip row V)).
Proof.
  intros Hl. unfold dot. by destruct (decide (length row = length V)).
Qed.

End MoreProperties.

(* ===================================================================== *)
(** ** Further properties in exact arithmetic *)
(* ===================================================================== *)

Section ExactProperties.
#[local] Existing Instance RC.numeric.
Local Open Scope R_scope.

Lemma RC_nonzero (v : RC.cx) : v <> (0, 0) -> v.1 * v.1 + v.2 * v.2 <> 0.
Proof.
  destruct v as [a b]. simpl. intros Hv Hz.
  apply Hv. f_equal; nra.
Qed.

Lemma RC_div_mul_cancel (v w : RC.cx) :
  v <> (0, 0) -> RC.div (RC.mul v w) v = w.
Proof.
  intros Hv%RC_nonzero. destruct v as [a b], w as [c d].
  unfold RC.div, RC.mul. simpl in *. f_equal; field; done.
Qed.

Lemma RC_mul_div_cancel (y z : RC.cx) :
  y <> (0, 0) -> RC.mul y (RC.div z y) = z.
Proof.
  intros Hy%RC_nonzero. destruct y as [a b], z as [c d].
  unfold RC.div, RC.mul. simpl in *. f_equal; field; done.
Qed.

Lemma RC_div_zero (y : RC.cx) : y <> (0, 0) -> RC.div (0, 0) y = (0, 0).
Proof.
  intros Hy%RC_nonzero. destruct y as [a b].
  unfold RC.div. simpl in *. f_equal; field; done.
Qed.

(** The correction of a bus whose injection is the power the voltages
    give is zero. *)
Lemma RC_correction_zero (v y ykk : RC.cx) :
  v <> (0, 0) -> ykk <> (0, 0) ->
  RC.div (RC.sub (RC.cconj (RC.div (RC.mul v (RC.cconj y)) v)) y) ykk = (0, 0).
Proof.
  intros Hv Hy. rewrite RC_div_mul_cancel by done.
  replace (RC.sub (RC.cconj (RC.cconj y)) y) with ((0, 0) : RC.cx).
  - by apply RC_div_zero.
  - destruct y as [c d]. unfold RC.sub, RC.cconj. simpl. f_equal; ring.
Qed.

(** A bus whose injection is the power the voltages give keeps its
    voltage in the update of lines 93-94, when neither divisor is zero. *)
Lemma update_bus_fixed_parts Ybus Sbus (V : list Cx) (row : list (option Cx)) k
    (vk yv : Cx) :
  V !! k = Some vk -> Ybus !! k = Some row -> dot row V = Some yv ->
  Sbus !! k = Some (cmul vk (conj yv)) -> vk <> (0, 0) ->
  (forall e, row !! k = Some e -> default (0, 0) e <> (0, 0)) ->
  update_bus Ybus Sbus V k = Some V.
Proof.
  intros Hvk Hrow Hd Hsk Hv Hdiag.
  assert (exists e, row !! k = Some e) as [e He].
  { apply lookup_lt_is_Some.
    exact (eq_ind_r (λ n : nat, (k < n)%nat) (lookup_lt_Some _ _ _ Hvk)
             (dot_length _ _ _ Hd)). }
  pose proof (Hdiag e He) as Hnz.
  assert (cdiv (csub (conj (cdiv (cmul vk (conj yv)) vk)) yv) (default c0 e)
          = (0, 0))
    as Hzero by (apply (RC_correction_zero vk yv (default (0, 0) e) Hv Hnz)).
  assert (cadd vk (0, 0) = vk) as Hadd.
  { destruct vk as [a b]. simpl. unfold RC.add. simpl. f_equal; ring. }
  unfold update_bus, gs_correction.
  rewrite Hsk. cbn [mbind option_bind]. rewrite Hvk. cbn [mbind option_bind].
  rewrite Hrow. cbn [mbind option_bind]. rewrite Hd. cbn [mbind option_bind].
  rewrite He. cbn [mbind option_bind].
  rewrite Hzero, Hadd. f_equal. by apply list_insert_id.
Qed.

(** The same, from the mismatch of arrays with one entry per bus. *)
Lemma update_bus_fixed Ybus Sbus (V mis : list Cx) k :
  length Ybus = length V -> length Sbus = length V ->
  mismatch Ybus Sbus V = Some mis ->
  mis !! k = Some (0, 0) -> V !! k <> Some (0, 0) ->
  (forall row e, Ybus !! k = Some row -> row !! k = Some e ->
                 default (0, 0) e <> (0, 0)) ->
  update_bus Ybus Sbus V k = Some V.
Proof.
  intros HlY HlS Hm Hk Hnz Hdiag.
  destruct (mismatch_lookup _ _ _ _ _ _ HlY HlS Hm Hk)
    as (vk & row & yv & sk & Hvk & Hrow & Hd & Hsk & Hz).
  assert (vk <> (0, 0)) as Hv by (intros ->; by apply Hnz).
  assert (sk = cmul vk (conj yv)) as ->.
  { simpl in Hz. unfold RC.sub in Hz. injection Hz as H1 H2.
    destruct sk as [s1 s2]. simpl. unfold RC.mul, RC.cconj. simpl in *.
    f_equal; lra. }
  apply (update_bus_fixed_parts Ybus _ V row k vk yv Hvk Hrow Hd Hsk Hv).
  intros e He. by apply (Hdiag row e).
Qed.



(** **** The row sum [Ybus[k,:] * V] when one entry of [V] changes *)

Lemma RC_fold_shift (row : list (option Cx)) (V : list Cx) (acc t : Cx) :
  foldl (λ a p, match p.1 with
                | Some y => cadd a (cmul y p.2)
                | None => a
                end) (cadd acc t) (zip row V) =
  cadd (foldl (λ a p, match p.1 with
                      | Some y => cadd a (cmul y p.2)
                      | None => a
                      end) acc (zip row V)) t.
Proof.
  revert V acc. induction row as [|e row IH]; intros [|v V] acc;
    try reflexivity.
  cbn [zip zip_with foldl fst snd]. destruct e as [y|]; [|apply IH].
  assert (cadd (cadd acc t) (cmul y v) = cadd (cadd acc (cmul y v)) t) as ->
    by (simpl; unfold RC.add; simpl; f_equal; ring).
  apply IH.
Qed.

Lemma RC_fold_insert (row : list (option Cx)) (V : list Cx) k (e : option Cx)
    (v x acc : Cx) :
  row !! k = Some e -> V !! k = Some v ->
  foldl (λ a p, match p.1 with
                | Some y => cadd a (cmul y p.2)
                | None => a
                end) acc (zip row (<[k := x]> V)) =
  cadd (foldl (λ a p, match p.1 with
                      | Some y => cadd a (cmul y p.2)
                      | None => a
                      end) acc (zip row V))
       (cmul (default c0 e) (csub x v)).
Proof.
  revert V k acc. induction row as [|e0 row IH]; intros [|v0 V] k acc He Hv;
    try done.
  destruct k as [|k]; cbn [zip zip_with foldl fst snd insert list_insert] in *.
  - cbn in He, Hv. simplify_eq. rewrite <- RC_fold_shift. destruct e as [y|].
    + assert (cadd acc (cmul y x) =
              cadd (cadd acc (cmul y v)) (cmul (default c0 (Some y)) (csub x v)))
        as -> by (simpl; unfold RC.add, RC.mul, RC.sub; simpl; f_equal; ring).
      done.
    + assert (cadd acc (cmul (default c0 None) (csub x v)) = acc) as ->
        by (destruct acc; simpl; unfold RC.add, RC.mul, RC.sub; simpl;
            f_equal; ring).
      done.
  - cbn in He, Hv. by apply IH.
Qed.

Lemma RC_row_solved (f ykk vk c : RC.cx) :
  ykk <> (0, 0) ->
  cadd f (cmul ykk (csub (cadd vk (cdiv (csub c f) ykk)) vk)) = c.
Proof.
  intros Hnz.
  assert (csub (cadd vk (cdiv (csub c f) ykk)) vk = cdiv (csub c f) ykk) as ->.
  { generalize (cdiv (csub c f) ykk). intros [t1 t2]. destruct vk as [a b].
    simpl. unfold RC.sub, RC.add. simpl. f_equal; ring. }
  assert (cmul ykk (cdiv (csub c f) ykk) = csub c f) as ->
    by (apply (RC_mul_div_cancel ykk _ Hnz)).
  destruct c as [c1 c2], f as [y1 y2]. simpl. unfold RC.add, RC.sub. simpl.
  f_equal; ring.
Qed.


(** **** A solution of the power-flow equations under a whole sweep *)

(** The injection rebuilt at a PV bus whose active power matches is the
    power the voltages give. *)
Lemma RC_injection_rebuilt (sk p : RC.cx) :
  sk.1 = p.1 -> cadd (of_real (real sk)) (cmul cj (of_real (imag p))) = p.
Proof.
  destruct sk as [s1 s2], p as [p1 p2]. simpl. intros ->.
  unfold RC.add, RC.mul. simpl. f_equal; ring.
Qed.

Lemma pv_bus_fixed Ybus Sbus (V : list Cx) (row : list (option Cx)) k
    (vk yv sk : Cx) :
  V !! k = Some vk -> Ybus !! k = Some row -> dot row V = Some yv ->
  Sbus !! k = Some sk -> sk.1 = (cmul vk (conj yv)).1 -> vk <> (0, 0) ->
  (forall e, row !! k = Some e -> default (0, 0) e <> (0, 0)) ->
  pv_bus Ybus k (V, Sbus) = Some (V, <[k := cmul vk (conj yv)]> Sbus).
Proof.
  intros Hvk Hrow Hd Hsk Hre Hv Hdiag.
  unfold pv_bus, pv_injection.
  rewrite Hvk. cbn [mbind option_bind]. rewrite Hrow. cbn [mbind option_bind].
  rewrite Hd. cbn [mbind option_bind]. rewrite Hsk. cbn [mbind option_bind].
  rewrite (RC_injection_rebuilt sk (cmul vk (conj yv)) Hre).
  rewrite (update_bus_fixed_parts Ybus _ V row k vk yv Hvk Hrow Hd);
    [done| |done|done].
  apply list_lookup_insert_eq. by eapply lookup_lt_Some.
Qed.

Lemma pv_loop_fixed Ybus (V : list Cx) pv (Sbus : list Cx) :
  (forall k, k ∈ pv -> exists vk row yv sk,
     V !! k = Some vk /\ Ybus !! k = Some row /\ dot row V = Some yv /\
     Sbus !! k = Some sk /\ sk.1 = (cmul vk (conj yv)).1 /\ vk <> (0, 0) /\
     (forall e, row !! k = Some e -> default (0, 0) e <> (0, 0))) ->
  exists Sbus',
    pv_loop Ybus pv (V, Sbus) = Some (V, Sbus') /\
    length Sbus' = length Sbus /\
    (forall j, j ∉ pv -> Sbus' !! j = Sbus !! j) /\
    (forall k vk row yv, k ∈ pv -> V !! k = Some vk -> Ybus !! k = Some row ->
       dot row V = Some yv -> Sbus' !! k = Some (cmul vk (conj yv))).
Proof.
  revert Sbus. induction pv as [|k0 ks IH]; intros Sbus Hall.
  { exists Sbus. split; [done|]. split; [done|]. split; [done|].
    intros k ??? Hk. by apply elem_of_nil in Hk. }
  destruct (Hall k0 ltac:(left))
    as (vk0 & row0 & yv0 & sk0 & Hvk0 & Hrow0 & Hd0 & Hsk0 & Hre0 & Hnz0 & Hdg0).
  pose proof (pv_bus_fixed Ybus Sbus V row0 k0 vk0 yv0 sk0
                Hvk0 Hrow0 Hd0 Hsk0 Hre0 Hnz0 Hdg0) as Hb.
  set (S1 := <[k0 := cmul vk0 (conj yv0)]> Sbus) in *.
  assert (k0 < length Sbus)%nat as Hlt by (by eapply lookup_lt_Some).
  assert (S1 !! k0 = Some (cmul vk0 (conj yv0))) as HS1
    by (by apply list_lookup_insert_eq).
  destruct (IH S1) as (Sbus' & Hl & Hlen & Hoth & Hin).
  { intros k Hk.
    destruct (Hall k ltac:(by right))
      as (vk & row & yv & sk & Hvk & Hrow & Hd & Hsk & Hre & Hnz & Hdg).
    destruct (decide (k = k0)) as [->|Hne].
    - pose proof (eq_trans (eq_sym Hvk) Hvk0) as E1. injection E1 as ->.
      pose proof (eq_trans (eq_sym Hrow) Hrow0) as E2. injection E2 as ->.
      pose proof (eq_trans (eq_sym Hd) Hd0) as E3. injection E3 as ->.
      exists vk0, row0, yv0, (cmul vk0 (conj yv0)). repeat split; done.
    - exists vk, row, yv, sk. repeat split; try done.
      unfold S1. by rewrite list_lookup_insert_ne. }
  exists Sbus'. split; [|split; [|split]].
  - cbn [pv_loop]. rewrite Hb. exact Hl.
  - rewrite Hlen. unfold S1. by rewrite length_insert.
  - intros j [Hne Hj]%not_elem_of_cons.
    rewrite (Hoth j Hj). unfold S1. by rewrite list_lookup_insert_ne.
  - intros k vk row yv Hk Hvk Hrow Hd.
    destruct (decide (k ∈ ks)) as [Hks|Hks]; [by eapply Hin|].
    apply elem_of_cons in Hk as [->|Hk]; [|done].
    pose proof (eq_trans (eq_sym Hvk) Hvk0) as E1. injection E1 as ->.
    pose proof (eq_trans (eq_sym Hrow) Hrow0) as E2. injection E2 as ->.
    pose proof (eq_trans (eq_sym Hd) Hd0) as E3. injection E3 as ->.
    by rewrite (Hoth k0 Hks).
Qed.

Lemma RC_renorm_same (vk : RC.cx) :
  vk <> (0, 0) -> cdiv (cmul (of_real (cabs vk)) vk) (of_real (cabs vk)) = vk.
Proof.
  intros Hnz.
  assert (0 < RC.abs vk) as Hpos.
  { unfold RC.abs. apply sqrt_lt_R0.
    pose proof (RC_nonzero vk Hnz). destruct vk as [a b]. simpl in *. nra. }
  simpl. generalize dependent (RC.abs vk). intros m Hm.
  destruct vk as [a b]. unfold RC.div, RC.mul. simpl. f_equal; field; lra.
Qed.

(** Line 104 changes nothing when every PV voltage already has its
    set-point magnitude and is not zero. *)
Lemma renormalize_fixed (Vm : list Re) pv (V : list Cx) :
  (forall k, k ∈ pv -> exists vk,
     V !! k = Some vk /\ Vm !! k = Some (cabs vk) /\ vk <> (0, 0)) ->
  renormalize Vm pv V = Some V.
Proof.
  intros Hall.
  destruct (renormalize Vm pv V) as [V'|] eqn:Hr.
  - f_equal. apply list_eq. intros j.
    destruct (decide (j ∈ pv)) as [Hj|Hj].
    + destruct (renormalize_lookup _ _ _ _ _ Hr Hj) as (mk & vk & Hmk & Hvk & HV').
      destruct (Hall j Hj) as (vk' & Hvk' & Hm' & Hnz).
      pose proof (eq_trans (eq_sym Hvk) Hvk') as E1. injection E1 as ->.
      pose proof (eq_trans (eq_sym Hmk) Hm') as E2. injection E2 as ->.
      refine (eq_trans HV' _). refine (eq_trans _ (eq_sym Hvk')).
      f_equal. by apply RC_renorm_same.
    + by apply (renormalize_other _ _ _ _ _ Hr).
  - exfalso. unfold renormalize in Hr.
    destruct (take_idx Vm pv) as [m|] eqn:Hm; cbn [mbind option_bind] in Hr.
    + destruct (take_idx V pv) as [v|] eqn:Hv; cbn [mbind option_bind] in Hr;
        [done|].
      apply mapM_None, Exists_exists in Hv as (k & Hk & Hnone).
      destruct (Hall k Hk) as (vk & Hvk & _). congruence.
    + apply mapM_None, Exists_exists in Hm as (k & Hk & Hnone).
      destruct (Hall k Hk) as (vk & _ & Hmk & _). congruence.
Qed.

Lemma mismatch_is_Some Ybus Sbus Sbus' (V : list Cx) mis :
  length Ybus = length V -> length Sbus = length V -> length Sbus' = length V ->
  mismatch Ybus Sbus V = Some mis ->
  is_Some (mismatch Ybus Sbus' V).
Proof.
  intros HlY HlS HlS' H.
  rewrite mismatch_eq in H by done. rewrite mismatch_eq by done.
  destruct (matvec Ybus V) as [YV|]; cbn [mbind option_bind] in *; [|done].
  by eexists.
Qed.

Lemma mismatch_lookup_Some Ybus Sbus (V : list Cx) mis k (vk sk yv : Cx) row :
  length Ybus = length V -> length Sbus = length V ->
  mismatch Ybus Sbus V = Some mis ->
  V !! k = Some vk -> Ybus !! k = Some row -> dot row V = Some yv ->
  Sbus !! k = Some sk ->
  mis !! k = Some (csub (cmul vk (conj yv)) sk).
Proof.
  intros HlY HlS Hm Hvk Hrow Hd Hsk.
  destruct (mis !! k) as [m|] eqn:Hk.
  - destruct (mismatch_lookup _ _ _ _ _ _ HlY HlS Hm Hk)
      as (vk' & row' & yv' & sk' & Hvk' & Hrow' & Hd' & Hsk' & ->).
    pose proof (eq_trans (eq_sym Hvk) Hvk') as E1. injection E1 as ->.
    pose proof (eq_trans (eq_sym Hrow) Hrow') as E2. injection E2 as ->.
    pose proof (eq_trans (eq_sym Hd) Hd') as E3. injection E3 as ->.
    pose proof (eq_trans (eq_sym Hsk) Hsk') as E4. injection E4 as ->.
    done.
  - exfalso. apply lookup_ge_None in Hk.
    pose proof (mismatch_length _ _ _ _ Hm) as Hle.
    rewrite mismatch_eq in Hm by done.
    destruct (matvec Ybus V) as [YV|] eqn:HYV; cbn [mbind option_bind] in Hm;
      [|done].
    apply matvec_length in HYV. simplify_eq.
    rewrite !length_zip_with, length_fmap in Hk.
    apply lookup_lt_Some in Hvk. lia.
Qed.


(** **** A first guess that already solves the equations *)

Lemma take_idx_Forall {A} (P : A -> Prop) (a : list A) idx :
  (forall k, k ∈ idx -> exists x, a !! k = Some x /\ P x) ->
  exists vals, take_idx a idx = Some vals /\ Forall P vals /\
               length vals = length idx.
Proof.
  unfold take_idx. induction idx as [|k ks IH]; intros Hall.
  { by exists []. }
  destruct (Hall k ltac:(left)) as (x & Hx & HP).
  destruct IH as (vals & Hv & HF & Hl); [intros j Hj; apply Hall; by right|].
  exists (x :: vals). cbn [mapM]. rewrite Hx. cbn [mbind option_bind].
  rewrite Hv. cbn [mbind option_bind mret option_ret].
  split; [done|]. split; [by constructor|]. simpl. by rewrite Hl.
Qed.

Lemma RC_norm_zero (F : list R) :
  F <> [] -> Forall (λ x, x = 0) F -> RC.norm F = Some 0.
Proof.
  destruct F as [|x xs]; [done|]. intros _ HF.
  apply Forall_cons in HF as [-> HF]. unfold RC.norm. f_equal.
  rewrite Rabs_R0. induction HF as [|y ys -> _ IH]; [done|].
  cbn [foldl]. rewrite Rabs_R0.
  replace (Rmax 0 0) with 0 by (symmetry; apply Rmax_left; lra). exact IH.
Qed.

(** X11: a first guess that solves the equations is returned as it is.  When
    the mismatch of [V0] has a zero real part at every PV bus and is zero
    at every PQ bus, there is such a bus, and the tolerance is positive,
    the call returns [V0] with the flag set and a count of 0, without a
    sweep and without a change to [Sbus]. *)
Theorem gausspf_solution_accepted ppoption Ybus Sbus (V0 mis : list Cx) ref
    pv pq ppopt :
  mismatch Ybus Sbus V0 = Some mis ->
  pv ++ pq <> [] ->
  (forall k, k ∈ pv -> exists m : RC.cx, mis !! k = Some m /\ m.1 = 0) ->
  (forall k, k ∈ pq -> mis !! k = Some (0, 0)) ->
  0 < PF_TOL (default ppoption ppopt) ->
  exists w, gausspf ppoption Ybus Sbus V0 ref pv pq ppopt =
            Some (mk_outcome V0 true 0 Sbus 0 w).
Proof.
  intros Hm Hne Hpv Hpq Htol.
  destruct (take_idx_Forall (λ m : @Cx RC.numeric, m.1 = 0) mis (pv ++ pq))
    as (a & Ha & HFa & Hla).
  { intros k [Hk|Hk]%elem_of_app; [by apply Hpv|].
    exists (0, 0). split; [by apply Hpq|done]. }
  destruct (take_idx_Forall (λ m : @Cx RC.numeric, m.2 = 0) mis pq)
    as (b & Hb & HFb & Hlb).
  { intros k Hk. exists (0, 0). split; [by apply Hpq|done]. }
  set (F := (real <$> a) ++ (imag <$> b)).
  assert (F_initial mis pv pq = Some F) as HF.
  { unfold F_initial. cbv zeta. rewrite Ha. cbn [mbind option_bind].
    by rewrite Hb. }
  assert (norm_inf F = Some 0) as Hn.
  { apply RC_norm_zero.
    - intros Hnil. apply app_eq_nil in Hnil as [Hnil _].
      apply fmap_nil_inv in Hnil. subst a. destruct (pv ++ pq); done.
    - apply Forall_app. split; apply Forall_fmap; (eapply Forall_impl; [eassumption|]);
        by intros [x y]. }
  assert (rltb 0 (PF_TOL (default ppoption ppopt)) = true) as Hlt.
  { simpl. unfold RC.ltb. by destruct (Rlt_dec _ _). }
  destruct (gausspf_no_sweep ppoption Ybus Sbus V0 ref pv pq ppopt _ _ _ Hm HF Hn)
    as [w Hw].
  - by rewrite Hlt.
  - exists w. refine (eq_trans Hw _). by rewrite Hlt.
Qed.

End ExactProperties.

(* ===================================================================== *)
(** ** The further properties at work: binary64, three buses *)
(* ===================================================================== *)

Section Net3MoreRuns.
#[local] Existing Instance F64.numeric.
Import Net3.

(** A load declared at bus 5 of a network of three buses. *)
Lemma gausspf_index_out_of_range_witness :
  gausspf (ppopt 0.0009765625%float 2 0) Ybus Sbus V0 [0] [1] [5] None = None.
Proof.
  apply (gausspf_index_out_of_range (ppopt 0.0009765625%float 2 0)
           Ybus Sbus V0 [0] [1] [5] None 5).
  - apply elem_of_app. right. apply list_elem_of_singleton. reflexivity.
  - simpl. lia.
  - simpl. lia.
  - simpl. lia.
Defined.

(** Six sweeps reach a tolerance of 2^-10; the result is then taken as it
    is. *)
Lemma gausspf_restart_converged_witness :
  exists o w,
    gausspf (ppopt 0.0009765625%float 100 0) Ybus Sbus V0 [0] [1] [2] None
      = Some o /\
    out_converged o = true /\ out_i o = 6%Z /\
    gausspf (ppopt 0.0009765625%float 100 0) Ybus (out_Sbus o) (out_V o)
      [0] [1] [2] None
      = Some (mk_outcome (out_V o) true 0 (out_Sbus o) (out_normF o) w).
Proof.
  assert (exists o,
            gausspf (ppopt 0.0009765625%float 100 0) Ybus Sbus V0 [0] [1] [2] None
              = Some o /\ out_converged o = true /\ out_i o = 6%Z)
    as (o & Hg & Hc & Hi).
  { eexists. split; [vm_compute; reflexivity|]. split; reflexivity. }
  destruct (gausspf_restart_converged (ppopt 0.0009765625%float 100 0)
              Ybus Sbus V0 [0] [1] [2] None o Hg Hc) as [w Hw].
  exists o, w. repeat split; assumption.
Defined.

(** Two sweeps do not reach it. *)
Lemma gausspf_not_converged_count_witness :
  exists o,
    gausspf (ppopt 0.0009765625%float 2 0) Ybus Sbus V0 [0] [1] [2] None
      = Some o /\
    out_converged o = false /\ out_i o = 2%Z.
Proof.
  assert (exists o,
            gausspf (ppopt 0.0009765625%float 2 0) Ybus Sbus V0 [0] [1] [2] None
              = Some o /\ out_converged o = false)
    as (o & Hg & Hc).
  { eexists. split; [vm_compute; reflexivity|]. reflexivity. }
  exists o. split; [assumption|]. split; [assumption|].
  apply (gausspf_not_converged_count (ppopt 0.0009765625%float 2 0)
           Ybus Sbus V0 [0] [1] [2] None o Hg Hc).
Defined.

(** A verbosity of -1 writes the summary and no banner. *)
Lemma gausspf_output_quiet_witness :
  exists o,
    gausspf (ppopt 0.0009765625%float 2 (-1)) Ybus Sbus V0 [0] [1] [2] None
      = Some o /\
    out_written o = [OutNotConverged 2].
Proof.
  assert (exists o,
            gausspf (ppopt 0.0009765625%float 2 (-1)) Ybus Sbus V0 [0] [1] [2] None
              = Some o /\ out_converged o = false /\ out_i o = 2%Z)
    as (o & Hg & Hc & Hi).
  { eexists. split; [vm_compute; reflexivity|]. split; reflexivity. }
  exists o. split; [assumption|].
  pose proof (gausspf_output_quiet (ppopt 0.0009765625%float 2 (-1))
                Ybus Sbus V0 [0] [1] [2] None o
                ltac:(simpl; lia) Hg) as H.
  simpl in H. rewrite Hc, Hi in H. exact H.
Defined.

(** A verbosity of 2 writes the lines numbered 0, 1 and 2. *)
Lemma gausspf_output_trace_witness :
  exists o,
    gausspf (ppopt 0.0009765625%float 2 2) Ybus Sbus V0 [0] [1] [2] None
      = Some o /\
    iter_lines (out_written o) = [0; 1; 2]%Z.
Proof.
  assert (exists o,
            gausspf (ppopt 0.0009765625%float 2 2) Ybus Sbus V0 [0] [1] [2] None
              = Some o /\ out_i o = 2%Z)
    as (o & Hg & Hi).
  { eexists. split; [vm_compute; reflexivity|]. reflexivity. }
  exists o. split; [assumption|].
  pose proof (gausspf_output_trace (ppopt 0.0009765625%float 2 2)
                Ybus Sbus V0 [0] [1] [2] None o
                ltac:(simpl; lia) Hg) as H.
  rewrite Hi in H. exact H.
Defined.

End Net3MoreRuns.

(* ===================================================================== *)
(** ** The further properties at work: exact arithmetic *)
(* ===================================================================== *)

Section ExactMoreRuns.
#[local] Existing Instance RC.numeric.
Local Open Scope R_scope.

(** Unfold the solver's definitions down to real arithmetic, then decide
    the equations between real numbers. *)
Ltac rc_compute :=
  cbv -[IZR Rplus Rminus Rmult Rdiv Ropp Rinv R_sqrt.sqrt Rabs Rmax Rlt_dec].
Ltac rc_eq := rc_compute; repeat f_equal; first [lra | field; lra].

(** A diagonal entry of one of the example matrices is stored and is not
    zero. *)
Ltac diagonal_not_zero :=
  let row := fresh "row" in
  let e := fresh "e" in
  let Hrow := fresh "Hrow" in
  let He := fresh "He" in
  let E := fresh "E" in
  intros row e Hrow He;
  cbn in Hrow; injection Hrow as <-; cbn in He; injection He as <-;
  cbn; unfold Net2.c; intros E; injection E; lra.




Lemma flat3_mismatch :
  mismatch Flat3.Ybus Flat3.Sbus Flat3.V0
  = Some [Net2.c 0; (0, - (1 / 2)); Net2.c 0].
Proof. rc_eq. Qed.


(** The same profile as a first guess: accepted without a sweep. *)
Lemma gausspf_solution_accepted_witness :
  exists w,
    gausspf (Net2.ppopt (1 / 2) 1 0) Flat3.Ybus Flat3.Sbus Flat3.V0
      [0%nat] [1%nat] [2%nat] None
    = Some (mk_outcome Flat3.V0 true 0 Flat3.Sbus 0 w).
Proof.
  apply (gausspf_solution_accepted (Net2.ppopt (1 / 2) 1 0)
           Flat3.Ybus Flat3.Sbus Flat3.V0
           [Net2.c 0; (0, - (1 / 2)); Net2.c 0] [0%nat] [1%nat] [2%nat] None
           flat3_mismatch).
  - discriminate.
  - intros k Hk. apply list_elem_of_singleton in Hk. subst k.
    exists (0, - (1 / 2)). split; reflexivity.
  - intros k Hk. apply list_elem_of_singleton in Hk. subst k. reflexivity.
  - simpl. lra.
Defined.

End ExactMoreRuns.
